(** * icu-message-formatter: the message processor and its utilities

    A shallow embedding of [src/source/utilities.js] and
    [src/source/MessageFormatter.js], and the properties of the bracket
    matcher, the argument splitter, the message processor and the string
    renderer.

    JavaScript strings are sequences of UTF-16 code units; indexes are the
    integers that [indexOf], [substring], [slice] and [charAt] exchange, with
    [-1] for "not found", so they are kept in [Z].

    The values object and the handler registry are plain objects, as object
    literals make them: a finite map of own properties over
    [Object.prototype], whose members a read reaches when the object has no
    own property of the name. The registry holds functions. Type handlers
    are functions of the host language: they may return any value, throw, or
    call back into the processor, so [process] carries a fuel that every call
    spends and that bounds the depth of the calls; the results about returned
    values give a fuel that suffices. *)

From Stdlib Require Import ZArith NArith List Lia String Ascii.
From stdpp Require Import base option list gmap.

Local Open Scope Z_scope.
#[local] Set Warnings "-register-all".

(** ** Strings *)

Module JsString.

Abbreviation jsstring := (list N).

(** A string literal of the source, as code units. *)
Definition str (s : string) : jsstring :=
  map N_of_ascii (list_ascii_of_string s).
Arguments str s%_string.

(** [string.length] *)
Definition len (s : jsstring) : Z := Z.of_nat (length s).

(** [a === b] on two strings *)
Definition same (a b : jsstring) : bool := bool_decide (a = b).

(** [!!string]: only the empty string is falsy. *)
Definition truthy (s : jsstring) : bool :=
  match s with [] => false | _ :: _ => true end.

(** [string.charAt(i)]: a string of one code unit, empty out of range. *)
Definition charAt (s : jsstring) (i : Z) : jsstring :=
  if i <? 0 then []
  else match s !! Z.to_nat i with
       | Some c => [c]
       | None => []
       end.

(** [string.substring(start, end)]: both arguments are clamped to
    [0 .. length] and swapped when out of order. *)
Definition substring (s : jsstring) (start finish : Z) : jsstring :=
  let a := Z.min (Z.max start 0) (len s) in
  let b := Z.min (Z.max finish 0) (len s) in
  let from := Z.min a b in
  let to := Z.max a b in
  take (Z.to_nat (to - from)) (drop (Z.to_nat from) s).

(** [string.substring(start)] *)
Definition substring_from (s : jsstring) (start : Z) : jsstring :=
  substring s start (len s).

(** [string.slice(start, end)]: a negative argument counts from the end;
    the result is empty when the bounds cross. *)
Definition slice (s : jsstring) (start finish : Z) : jsstring :=
  let rel k := if k <? 0 then Z.max (len s + k) 0 else Z.min k (len s) in
  let from := rel start in
  let to := rel finish in
  take (Z.to_nat (Z.max (to - from) 0)) (drop (Z.to_nat from) s).

Fixpoint starts_with (s search : jsstring) {struct search} : bool :=
  match search, s with
  | [], _ => true
  | _ :: _, [] => false
  | c :: search', d :: s' => (c =? d)%N && starts_with s' search'
  end.

(** [string.indexOf(search)]: the least index at which [search] occurs,
    [-1] when it occurs nowhere. [position] is the index of the head of
    the suffix [s] in the whole string. *)
Fixpoint indexOf_at (s search : jsstring) (position : Z) : Z :=
  if starts_with s search then position
  else match s with
       | [] => -1
       | _ :: rest => indexOf_at rest search (position + 1)
       end.

Definition indexOf (s search : jsstring) : Z := indexOf_at s search 0.

(** ECMAScript WhiteSpace and LineTerminator code units, the ones
    [String.prototype.trim] strips. *)
Definition is_whitespace (c : N) : bool :=
  ((9 <=? c) && (c <=? 13) || (c =? 32) || (c =? 160) || (c =? 5760)
   || (8192 <=? c) && (c <=? 8202) || (c =? 8232) || (c =? 8233)
   || (c =? 8239) || (c =? 8287) || (c =? 12288) || (c =? 65279))%N.

Fixpoint trimStart (s : jsstring) : jsstring :=
  match s with
  | c :: rest => if is_whitespace c then trimStart rest else s
  | [] => []
  end.

Definition trimEnd (s : jsstring) : jsstring := rev (trimStart (rev s)).

(** [string.trim()] *)
Definition trim (s : jsstring) : jsstring := trimEnd (trimStart s).

(** [parts.join(separator)] on parts that are already strings *)
Fixpoint join (parts : list jsstring) (separator : jsstring) : jsstring :=
  match parts with
  | [] => []
  | [p] => p
  | p :: rest => p ++ separator ++ join rest separator
  end.

End JsString.
Import JsString.

(** ** utilities.js *)

(** [SOURCE_MESSAGE] and [SOURCE_PLACEHOLDER], the exported constants. *)
Definition SOURCE_MESSAGE : jsstring := str "message".
Definition SOURCE_PLACEHOLDER : jsstring := str "placeholder".

(** The [for] loop of [findClosingBracket]: [i] is the loop variable, [depth]
    the counter, [steps] the iterations left before [i] reaches
    [string.length] (the loop is entered with [steps = length - i]). *)
Fixpoint findClosingBracket_loop (steps : nat) (string : jsstring)
    (i depth : Z) : Z :=
  match steps with
  | O => -1
  | S steps' =>
      if i <? len string then
        let char := charAt string i in
        if same char (str "}") then
          if depth =? 0 then i
          else findClosingBracket_loop steps' string (i + 1) (depth - 1)
        else if same char (str "{") then
          findClosingBracket_loop steps' string (i + 1) (depth + 1)
        else findClosingBracket_loop steps' string (i + 1) depth
      else -1
  end.

Definition findClosingBracket (string : jsstring) (fromIndex : Z) : Z :=
  findClosingBracket_loop (Z.to_nat (len string - (fromIndex + 1)))
    string (fromIndex + 1) 0.

(** [split], with the recursion bounded by the length of [string]: every
    recursive call is on a strictly shorter string ([split_equation]
    below), so the bound is never reached. [accumulator.push(x)] is
    [accumulator ++ [x]]. *)
Fixpoint split_bounded (bound : nat) (string separator : jsstring)
    (limit : Z) (accumulator : list jsstring) : list jsstring :=
  match bound with
  | O => accumulator
  | S bound' =>
      if negb (truthy string) then accumulator
      else if limit =? 1 then accumulator ++ [string]
      else
        let indexOfDelimiter := indexOf string separator in
        if indexOfDelimiter =? -1 then accumulator ++ [string]
        else
          let head := trim (substring string 0 indexOfDelimiter) in
          let tail :=
            trim (substring_from string
                    (indexOfDelimiter + len separator + 1)) in
          split_bounded bound' tail separator (limit - 1)
            (accumulator ++ [head])
  end.

Definition split (string separator : jsstring) (limit : Z)
    (accumulator : list jsstring) : list jsstring :=
  split_bounded (length string) string separator limit accumulator.

Definition splitFormattedArgument (block : jsstring) : list jsstring :=
  split (slice block 1 (-1)) (str ",") 3 [].

(** ** JavaScript values

    What a values map may hold, what a type handler may return and what
    [process] builds: node objects are plain objects, kept as their list of
    properties. [VPrimitive] stands for a number, boolean or other primitive,
    carried with the text that string conversion gives it; [VFunction] for a
    function, carried with its source text; [VBoxed] for the wrapper object
    of a primitive, carried with the text of the primitive. *)

Inductive value : Type :=
| VUndefined
| VNull
| VString (s : jsstring)
| VPrimitive (text : jsstring)
| VArray (items : list value)
| VObject (props : list (jsstring * value))
| VFunction (source : jsstring)
| VBoxed (text : jsstring).

Inductive exception : Type :=
| Error (message : jsstring)
| TypeError (message : jsstring)
| ThrownValue (v : value).

(** The result of running a piece of the program: it returns, it throws, or
    the evaluation budget given to the recursion of [process] ran out. *)
Inductive outcome (A : Type) : Type :=
| Returned (a : A)
| Thrown (e : exception)
| OutOfFuel.
Arguments Returned {A} a.
Arguments Thrown {A} e.
Arguments OutOfFuel {A}.

Definition bind {A B : Type} (o : outcome A) (k : A -> outcome B)
    : outcome B :=
  match o with
  | Returned a => k a
  | Thrown e => Thrown e
  | OutOfFuel => OutOfFuel
  end.

Notation "'do' x <- o ; k" := (bind o (fun x => k))
  (at level 10, x name, o at level 100, k at level 200).

(** [object[name]] on a plain object given by its properties. *)
Fixpoint lookup_property (props : list (jsstring * value)) (name : jsstring)
    : value :=
  match props with
  | [] => VUndefined
  | (n, v) :: props' => if same n name then v else lookup_property props' name
  end.

(** [v[name]]: reading a property of [undefined] or [null] throws; strings,
    other primitives and arrays have no property of the names used here. *)
Definition get (v : value) (name : jsstring) : outcome value :=
  match v with
  | VUndefined | VNull =>
      Thrown (TypeError (str "Cannot destructure property of undefined or null"))
  | VObject props => Returned (lookup_property props name)
  | _ => Returned VUndefined
  end.

(** String conversion of a value, and of an array element inside
    [Array.prototype.join], where [undefined] and [null] give the empty
    string. An array converts to its elements joined with a comma. *)
Fixpoint toString (v : value) : jsstring :=
  match v with
  | VUndefined => str "undefined"
  | VNull => str "null"
  | VString s => s
  | VPrimitive text => text
  | VArray items =>
      (fix elements (l : list value) : jsstring :=
         match l with
         | [] => []
         | x :: l' =>
             let shown :=
               match x with
               | VUndefined | VNull => []
               | _ => toString x
               end in
             match l' with
             | [] => shown
             | _ :: _ => shown ++ str "," ++ elements l'
             end
         end) items
  | VObject _ => str "[object Object]"
  | VFunction source => source
  | VBoxed text => text
  end.

Definition join_element (v : value) : jsstring :=
  match v with
  | VUndefined | VNull => []
  | _ => toString v
  end.

(** [array.join(separator)] *)
Definition array_join (array : list value) (separator : jsstring) : jsstring :=
  join (map join_element array) separator.

(** ** MessageFormatter.js *)

Definition decorateMessageString (string : jsstring) : value :=
  VObject [(str "source", VString (str "message"));
           (str "value", VString string)].

(** *** Object.prototype

    The values object and the handler registry are plain objects: a read
    [object[name]] that finds no own property goes on to [Object.prototype].
    Its members are the built-in functions below, the constructor [Object]
    and the accessor [__proto__], which gives [Object.prototype] itself.
    The source text of a built-in function is the host's; the layout here is
    that of V8. *)

Definition Object_prototype_methods : list jsstring :=
  [str "__defineGetter__"; str "__defineSetter__"; str "hasOwnProperty";
   str "__lookupGetter__"; str "__lookupSetter__"; str "isPrototypeOf";
   str "propertyIsEnumerable"; str "toString"; str "valueOf";
   str "toLocaleString"].

Definition native_source (name : jsstring) : jsstring :=
  str "function " ++ name ++ str "() { [native code] }".

Definition Object_prototype : value :=
  VObject ((str "constructor", VFunction (native_source (str "Object")))
           :: map (fun name => (name, VFunction (native_source name)))
                  Object_prototype_methods).

(** [Object.prototype[name]], reached from an object that has no own
    property [name]. *)
Definition Object_prototype_get (name : jsstring) : value :=
  if same name (str "__proto__") then Object_prototype
  else
    match Object_prototype with
    | VObject props => lookup_property props name
    | _ => VUndefined
    end.

(** [values[name]] *)
Definition read_property (values : gmap jsstring value) (name : jsstring)
    : value :=
  match values !! name with
  | Some v => v
  | None => Object_prototype_get name
  end.

(** [ToObject] of a value that is not [undefined] or [null]. *)
Definition box (v : value) : value :=
  match v with
  | VString s => VBoxed s
  | VPrimitive text => VBoxed text
  | _ => v
  end.

Definition is_object (v : value) : bool :=
  match v with
  | VArray _ | VObject _ | VFunction _ | VBoxed _ => true
  | _ => false
  end.

(** A part that destructuring left [undefined], or its string. *)
Definition of_part (part : option jsstring) : value :=
  match part with
  | Some s => VString s
  | None => VUndefined
  end.

Definition decorateValue (key type : option jsstring) (v : value) : value :=
  VObject [(str "source", VString (str "value"));
           (str "key", of_part key);
           (str "type", of_part type);
           (str "value", v)].

(** [decorateMessage] and [decoratePlaceholder], the decorators that
    utilities.js exports; [process] does not call them. *)
Definition decorateMessage (string : jsstring) : value :=
  VObject [(str "source", VString SOURCE_MESSAGE);
           (str "value", VString string)].

Definition decoratePlaceholder (key type : option jsstring) (v : value)
    : value :=
  VObject [(str "source", VString SOURCE_PLACEHOLDER);
           (str "key", of_part key);
           (str "type", of_part type);
           (str "value", v)].

(** What one element of the array contributes to the result of
    [extractValues]: the body of the [reduce] callback,
    [Array.isArray(value) ? extractValues(value) : value], before [concat]
    appends it. The recursion goes through the [value] property of the
    element and the items of the array found there. *)
Fixpoint extractValues_element (element : value) : outcome (list value) :=
  match element with
  | VUndefined | VNull =>
      Thrown (TypeError (str "Cannot destructure property of undefined or null"))
  | VObject props =>
      (fix read (ps : list (jsstring * value)) : outcome (list value) :=
         match ps with
         | [] => Returned [VUndefined]
         | (n, v) :: ps' =>
             if same n (str "value") then
               match v with
               | VArray items =>
                   (fix reduce (l : list value) : outcome (list value) :=
                      match l with
                      | [] => Returned []
                      | x :: l' =>
                          do extracted <- extractValues_element x ;
                          do acc <- reduce l' ;
                          Returned (extracted ++ acc)
                      end) items
               | _ => Returned [v]
               end
             else read ps'
         end) props
  | _ => Returned [VUndefined]
  end.

Fixpoint extractValues (array : list value) : outcome (list value) :=
  match array with
  | [] => Returned []
  | element :: rest =>
      do extracted <- extractValues_element element ;
      do acc <- extractValues rest ;
      Returned (extracted ++ acc)
  end.

(** The recursion callback a handler receives and the handlers themselves. *)
Abbreviation processor :=
  (jsstring -> gmap jsstring value -> option jsstring -> outcome (list value)).

Abbreviation typeHandler :=
  (value -> option jsstring -> gmap jsstring value -> option jsstring ->
   processor -> outcome value).

(** The property name [values[key]] reads: [undefined] becomes the name
    "undefined". *)
Definition property_key (key : option jsstring) : jsstring :=
  match key with
  | Some k => k
  | None => str "undefined"
  end.

(** [let body = values[key]; if (body === null || body === undefined) body = '']:
    [values] holds the own properties of the values object. *)
Definition body_of (values : gmap jsstring value) (key : option jsstring)
    : value :=
  match read_property values (property_key key) with
  | VUndefined | VNull => VString []
  | v => v
  end.

(** What calling a member of [Object.prototype] as a type handler does,
    [typeHandler(body, format, values, locale, process)] with no [this]:
    [Object] gives the wrapper of [body]; [toString] gives the tag of
    [undefined]; [isPrototypeOf] answers [false] for a primitive; these and
    the other methods throw a [TypeError] where they convert the missing
    [this] to an object, and so does calling the object that [__proto__]
    gives, which is no function. *)
Definition Object_prototype_call (name : jsstring) : option typeHandler :=
  if same name (str "constructor") then
    Some (fun body _ _ _ _ => Returned (box body))
  else if same name (str "toString") then
    Some (fun _ _ _ _ _ => Returned (VString (str "[object Undefined]")))
  else if same name (str "isPrototypeOf") then
    Some (fun body _ _ _ _ =>
            if is_object body then
              Thrown (TypeError (str "Cannot convert undefined or null to object"))
            else Returned (VPrimitive (str "false")))
  else if bool_decide (name ∈ Object_prototype_methods) then
    Some (fun _ _ _ _ _ =>
            Thrown (TypeError (str "Cannot convert undefined or null to object")))
  else if same name (str "__proto__") then
    Some (fun _ _ _ _ _ =>
            Thrown (TypeError (str "typeHandler is not a function")))
  else None.

(** [this.typeHandlers[type]]: [typeHandlers] holds the own properties of the
    registry, the functions registered at construction. *)
Definition read_handler (typeHandlers : gmap jsstring typeHandler)
    (type : jsstring) : option typeHandler :=
  match typeHandlers !! type with
  | Some handler => Some handler
  | None => Object_prototype_call type
  end.

(** [type && this.typeHandlers[type]], when it is truthy. *)
Definition handler_for (typeHandlers : gmap jsstring typeHandler)
    (type : option jsstring) : option typeHandler :=
  match type with
  | Some t => if truthy t then read_handler typeHandlers t else None
  | None => None
  end.

Definition unbalanced_error (message : jsstring) : exception :=
  Error (str "Unbalanced curly braces in string: " ++ [34%N] ++ message ++ [34%N]).

(** [MessageFormatter.prototype.process] of a formatter constructed with
    [typeHandlers]. Each call spends one unit of [fuel]; the call on the tail
    and the callback handed to a type handler run on what is left. *)
Fixpoint process (typeHandlers : gmap jsstring typeHandler) (fuel : nat)
    (message : jsstring) (values : gmap jsstring value)
    (locale : option jsstring) : outcome (list value) :=
  match fuel with
  | O => OutOfFuel
  | S fuel' =>
      if negb (truthy message) then Returned []
      else
        let blockStartIndex := indexOf message (str "{") in
        if negb (blockStartIndex =? -1) then
          let blockEndIndex := findClosingBracket message blockStartIndex in
          if negb (blockEndIndex =? -1) then
            let block := substring message blockStartIndex (blockEndIndex + 1) in
            if truthy block then
              let head := substring message 0 blockStartIndex in
              let result :=
                if truthy head then [decorateMessageString head] else [] in
              let parts := splitFormattedArgument block in
              let key := parts !! 0%nat in
              let type := parts !! 1%nat in
              let format := parts !! 2%nat in
              let body := body_of values key in
              do v <- match handler_for typeHandlers type with
                   | Some handler =>
                       handler body format values locale
                         (process typeHandlers fuel')
                   | None => Returned body
                   end ;
              let result := result ++ [decorateValue key type v] in
              let tail := substring_from message (blockEndIndex + 1) in
              if truthy tail then
                do rest <- process typeHandlers fuel' tail values locale ;
                Returned (result ++ rest)
              else Returned result
            else Returned [decorateMessageString message]
          else Thrown (unbalanced_error message)
        else Returned [decorateMessageString message]
  end.

(** [MessageFormatter.prototype.format]: the function that [memoize] wraps. *)
Definition format (typeHandlers : gmap jsstring typeHandler) (fuel : nat)
    (message : jsstring) (values : gmap jsstring value)
    (locale : option jsstring) : outcome jsstring :=
  do processResult <- process typeHandlers fuel message values locale ;
  do extractedResult <- extractValues processResult ;
  Returned (array_join extractedResult []).

(** ** The specification's vocabulary *)

Definition open_brace : N := 123.
Definition close_brace : N := 125.
Definition comma : N := 44.

(** The bracket matcher in the specification's words: scan the characters
    after the opening brace with a nesting counter; [{] increments it, [}]
    ends the scan when the counter is 0 and decrements it otherwise. The
    result is the offset of the closing brace in [rest]. *)
Fixpoint closing (rest : jsstring) (counter : nat) : option nat :=
  match rest with
  | [] => None
  | c :: rest' =>
      if (c =? close_brace)%N then
        match counter with
        | O => Some O
        | S counter' => S <$> closing rest' counter'
        end
      else if (c =? open_brace)%N then S <$> closing rest' (S counter)
      else S <$> closing rest' counter
  end.

(** Text whose braces pair up: what may stand between an opening brace and
    the closing brace that matches it. *)
Inductive nested : jsstring -> Prop :=
| nested_nil : nested []
| nested_char (c : N) (w : jsstring) :
    c <> open_brace -> c <> close_brace -> nested w -> nested (c :: w)
| nested_pair (w1 w2 : jsstring) :
    nested w1 -> nested w2 ->
    nested (open_brace :: w1 ++ close_brace :: w2).

(** The message has a first block: an opening brace and its closing brace. *)
Definition has_block (message : jsstring) : Prop :=
  indexOf message (str "{") <> -1 /\
  findClosingBracket message (indexOf message (str "{")) <> -1.

(** [block], [head] and [tail] of [process] for a message with a block, and
    the statements of [process] that follow the handler call: they put the
    placeholder node after the literal head and process the tail. *)
Definition block_of (message : jsstring) : jsstring :=
  let blockStartIndex := indexOf message (str "{") in
  let blockEndIndex := findClosingBracket message blockStartIndex in
  substring message blockStartIndex (blockEndIndex + 1).

Definition head_of (message : jsstring) : jsstring :=
  substring message 0 (indexOf message (str "{")).

Definition tail_of (message : jsstring) : jsstring :=
  let blockStartIndex := indexOf message (str "{") in
  let blockEndIndex := findClosingBracket message blockStartIndex in
  substring_from message (blockEndIndex + 1).

Definition emit (typeHandlers : gmap jsstring typeHandler) (fuel : nat)
    (message : jsstring) (values : gmap jsstring value)
    (locale : option jsstring) (v : value) : outcome (list value) :=
  let head := head_of message in
  let result := if truthy head then [decorateMessageString head] else [] in
  let parts := splitFormattedArgument (block_of message) in
  let result := result ++ [decorateValue (parts !! 0%nat) (parts !! 1%nat) v] in
  let tail := tail_of message in
  if truthy tail then
    do rest <- process typeHandlers fuel tail values locale ;
    Returned (result ++ rest)
  else Returned result.

(** The [source] of a node is one of the two that [process] writes and not
    the exported [SOURCE_PLACEHOLDER]. *)
Definition node_source_regular (node : value) : Prop :=
  (get node (str "source") = Returned (VString (str "message")) \/
   get node (str "source") = Returned (VString (str "value"))) /\
  get node (str "source") <> Returned (VString SOURCE_PLACEHOLDER).

(** The message has an opening brace that no closing brace matches. *)
Definition unmatched (message : jsstring) : Prop :=
  exists i, charAt message i = str "{" /\ findClosingBracket message i = -1.

(** The message read as the specification reads it: literal characters and
    placeholder blocks, found by one pass that counts the nesting depth.
    [block] holds the characters of the block that is open. *)
Inductive segment : Type :=
| Literal (c : N)
| Placeholder (block : jsstring).

Fixpoint segments_from (message : jsstring) (depth : nat) (block : jsstring)
    : list segment :=
  match message with
  | [] => []
  | c :: rest =>
      match depth with
      | O =>
          if (c =? open_brace)%N then segments_from rest 1 [c]
          else Literal c :: segments_from rest 0 []
      | S depth' =>
          if (c =? close_brace)%N then
            match depth' with
            | O => Placeholder (block ++ [c]) :: segments_from rest 0 []
            | S _ => segments_from rest depth' (block ++ [c])
            end
          else if (c =? open_brace)%N then
            segments_from rest (S depth) (block ++ [c])
          else segments_from rest depth (block ++ [c])
      end
  end.

Definition segments (message : jsstring) : list segment :=
  segments_from message 0 [].

(** Balanced braces: the depth never drops below 0 and ends at 0. *)
Fixpoint balanced_from (message : jsstring) (depth : nat) : bool :=
  match message with
  | [] => Nat.eqb depth 0
  | c :: rest =>
      if (c =? open_brace)%N then balanced_from rest (S depth)
      else if (c =? close_brace)%N then
        match depth with
        | O => false
        | S depth' => balanced_from rest depth'
        end
      else balanced_from rest depth
  end.

Definition balanced (message : jsstring) : bool := balanced_from message 0.

(** The key of a block as the specification reads it: the braces stripped,
    the text before the first comma, or all of it when there is none,
    trimmed. *)
Definition interior_of (block : jsstring) : jsstring :=
  take (length block - 2) (drop 1 block).

Fixpoint before_comma (s : jsstring) : jsstring :=
  match s with
  | [] => []
  | c :: rest => if (c =? comma)%N then [] else c :: before_comma rest
  end.

Definition key_of (block : jsstring) : jsstring :=
  trim (before_comma (interior_of block)).

(** The resolved value of a block as the specification has it: what the
    values map holds for the key, the empty string for a missing, [null] or
    [undefined] entry. *)
Definition resolved (values : gmap jsstring value) (block : jsstring) : value :=
  match values !! key_of block with
  | None | Some VUndefined | Some VNull => VString []
  | Some v => v
  end.

(** The message with every placeholder block replaced by its resolved
    value. *)
Definition segment_text (values : gmap jsstring value) (seg : segment)
    : jsstring :=
  match seg with
  | Literal c => [c]
  | Placeholder block => toString (resolved values block)
  end.

Definition substituted (values : gmap jsstring value) (message : jsstring)
    : jsstring :=
  flat_map (segment_text values) (segments message).

(** The blocks to which the substitution property applies. The key stands
    alone without spaces around it, or a comma follows it: the block has an
    interior, and the interior holds a comma or is trimmed. *)
Definition key_is_plain (block : jsstring) : bool :=
  let interior := interior_of block in
  truthy interior &&
  (bool_decide (comma ∈ interior) || same (trim interior) interior).

(** What [values[key]] reads for the key, from the values object or from
    [Object.prototype], is a string, [null] or [undefined]. *)
Definition reads_string (values : gmap jsstring value) (block : jsstring)
    : bool :=
  match read_property values (key_of block) with
  | VString _ | VUndefined | VNull => true
  | _ => false
  end.

(** The handler that the dispatch of [process] finds for the block, if it
    finds one in the registry or in [Object.prototype], returns the value it
    is given. *)
Definition dispatch_transparent (typeHandlers : gmap jsstring typeHandler)
    (values : gmap jsstring value) (locale : option jsstring)
    (block : jsstring) : Prop :=
  forall handler,
    handler_for typeHandlers (splitFormattedArgument block !! 1%nat) =
      Some handler ->
    forall body format recurse,
      handler body format values locale recurse = Returned body.

(** A registry with one handler, which returns the value it is given. *)
Definition echo_handlers : gmap jsstring typeHandler :=
  {[ str "text" := fun body _ _ _ _ => Returned body ]}.

(** The placeholder blocks of a message, left to right. *)
Definition blocks (message : jsstring) : list jsstring :=
  flat_map (fun seg =>
              match seg with
              | Literal _ => []
              | Placeholder block => [block]
              end)
           (segments message).

(** The run returned. *)
Definition returns {A : Type} (o : outcome A) : bool :=
  match o with
  | Returned _ => true
  | _ => false
  end.

(** Every handler call that [process] makes for the given blocks returns:
    the call for the first block is made by the call of [process] that has
    [fuel], with the processor of the remaining fuel as callback, and so on
    along the blocks. *)
Fixpoint handler_calls_return (typeHandlers : gmap jsstring typeHandler)
    (fuel : nat) (blocks : list jsstring) (values : gmap jsstring value)
    (locale : option jsstring) : bool :=
  match blocks, fuel with
  | [], _ => true
  | _ :: _, O => true
  | block :: blocks', S fuel' =>
      let parts := splitFormattedArgument block in
      match handler_for typeHandlers (parts !! 1%nat) with
      | Some handler =>
          returns (handler (body_of values (parts !! 0%nat)) (parts !! 2%nat)
                     values locale (process typeHandlers fuel'))
      | None => true
      end
      && handler_calls_return typeHandlers fuel' blocks' values locale
  end.

(** [node[name]] on a node object, and the nodes whose [source] is "value"
    with the key and type they carry. *)
Definition property (node : value) (name : jsstring) : value :=
  match node with
  | VObject props => lookup_property props name
  | _ => VUndefined
  end.

Definition is_value_node (node : value) : bool :=
  match property node (str "source") with
  | VString s => same s (str "value")
  | _ => false
  end.

Definition node_tag (node : value) : value * value :=
  (property node (str "key"), property node (str "type")).

Definition block_tag (block : jsstring) : value * value :=
  (of_part (splitFormattedArgument block !! 0%nat),
   of_part (splitFormattedArgument block !! 1%nat)).

Definition not_array (v : value) : Prop := forall items, v <> VArray items.

(** Values that are not objects and not [undefined] or [null]: reading their
    [value] property gives [undefined]. *)
Definition without_value_property (v : value) : bool :=
  match v with
  | VString _ | VPrimitive _ | VArray _ => true
  | _ => false
  end.

(** A handler that throws, and one that hands its format to the processor
    and returns the nodes it gets. *)
Definition failing_handlers : gmap jsstring typeHandler :=
  {[ str "boom" := fun _ _ _ _ _ => Thrown (TypeError (str "boom")) ]}.

Definition nesting_handler : typeHandler :=
  fun _ format values locale recurse =>
    match format with
    | Some f => do nodes <- recurse f values locale ; Returned (VArray nodes)
    | None => Returned (VArray [])
    end.

Definition nesting_handlers : gmap jsstring typeHandler :=
  {[ str "nest" := nesting_handler ]}.

(** [p] is a contiguous piece of [s]. *)
Definition piece (p s : jsstring) : Prop := exists a b, s = a ++ p ++ b.

(** ** Strings: lemmas *)

Section StringLemmas.

Implicit Types (s t r : jsstring) (c : N).

Lemma str_open_brace : str "{" = [open_brace].
Proof. reflexivity. Qed.

Lemma str_close_brace : str "}" = [close_brace].
Proof. reflexivity. Qed.

Lemma same_true a b : same a b = true <-> a = b.
Proof. unfold same. apply bool_decide_eq_true. Qed.

Lemma same_refl a : same a a = true.
Proof. by apply same_true. Qed.

Lemma same_single c d : same [c] [d] = (c =? d)%N.
Proof.
  unfold same. destruct (N.eqb_spec c d) as [->|Hne].
  - by apply bool_decide_eq_true_2.
  - apply bool_decide_eq_false_2. congruence.
Qed.

Lemma same_nil_single d : same [] [d] = false.
Proof. by apply bool_decide_eq_false_2. Qed.

Lemma len_nonneg s : 0 <= len s.
Proof. unfold len. lia. Qed.

Lemma len_app s t : len (s ++ t) = len s + len t.
Proof. unfold len. rewrite length_app. lia. Qed.

Lemma truthy_true s : truthy s = true <-> s <> [].
Proof. destruct s; simpl; split; congruence. Qed.

Lemma truthy_length s : truthy s = true <-> (0 < length s)%nat.
Proof. destruct s; simpl; split; (congruence || lia). Qed.

Lemma charAt_drop s i c r :
  0 <= i -> drop (Z.to_nat i) s = c :: r -> charAt s i = [c].
Proof.
  intros Hi Hd. unfold charAt.
  destruct (Z.ltb_spec i 0); [lia|].
  pose proof (lookup_drop s (Z.to_nat i) 0) as Hl.
  rewrite Hd, Nat.add_0_r in Hl. simpl in Hl. by rewrite <- Hl.
Qed.

Lemma charAt_lookup s i c :
  charAt s i = [c] <-> 0 <= i /\ s !! Z.to_nat i = Some c.
Proof.
  unfold charAt. destruct (Z.ltb_spec i 0).
  - split; [done | lia].
  - destruct (s !! Z.to_nat i); split; try done.
    + intros [= ->]. done.
    + intros [_ [= ->]]. done.
    + intros [_ ?]. done.
Qed.

(** [substring] inside the bounds. *)
Lemma substring_take_drop s a b :
  0 <= a <= b -> b <= len s ->
  substring s a b = take (Z.to_nat (b - a)) (drop (Z.to_nat a) s).
Proof.
  intros Ha Hb. unfold substring.
  replace (Z.min (Z.max a 0) (len s)) with a by lia.
  replace (Z.min (Z.max b 0) (len s)) with b by lia.
  replace (Z.min a b) with a by lia.
  replace (Z.max a b) with b by lia. done.
Qed.

Lemma substring_prefix s b :
  0 <= b <= len s -> substring s 0 b = take (Z.to_nat b) s.
Proof.
  intros Hb. rewrite substring_take_drop by lia.
  simpl. by rewrite Z.sub_0_r.
Qed.

Lemma substring_from_drop s a :
  0 <= a -> substring_from s a = drop (Z.to_nat a) s.
Proof.
  intros Ha. unfold substring_from, substring, len.
  destruct (Z.le_gt_cases a (Z.of_nat (length s))).
  - replace (Z.min (Z.max a 0) _) with a by lia.
    replace (Z.min (Z.max (Z.of_nat (length s)) 0) _)
      with (Z.of_nat (length s)) by lia.
    replace (Z.min a _) with a by lia.
    replace (Z.max a _) with (Z.of_nat (length s)) by lia.
    apply take_ge. rewrite length_drop. lia.
  - replace (Z.min (Z.max a 0) _) with (Z.of_nat (length s)) by lia.
    replace (Z.min (Z.max (Z.of_nat (length s)) 0) _)
      with (Z.of_nat (length s)) by lia.
    rewrite Z.min_id, Z.max_id, Z.sub_diag. simpl.
    symmetry. apply drop_ge. lia.
Qed.

Lemma slice_interior s :
  (2 <= length s)%nat ->
  slice s 1 (-1) = take (length s - 2) (drop 1 s).
Proof.
  intros Hs. unfold slice, len. simpl.
  destruct (Z.ltb_spec 1 0); [lia|].
  replace (Z.to_nat (Z.min 1 (Z.of_nat (length s)))) with 1%nat by lia.
  f_equal. lia.
Qed.

(** [indexOf] with a search string of one code unit. *)
Lemma indexOf_at_single s c p :
  ((c ∉ s) /\ indexOf_at s [c] p = -1) \/
  (exists t r, s = t ++ c :: r /\ (c ∉ t) /\
               indexOf_at s [c] p = p + len t).
Proof.
  revert p. induction s as [|d s IH]; intros p.
  - left. split; [apply not_elem_of_nil | reflexivity].
  - simpl. destruct (N.eqb_spec c d) as [->|Hne]; simpl.
    + right. exists [], s. split; [done|]. split; [apply not_elem_of_nil|].
      unfold len. simpl. lia.
    + destruct (IH (p + 1)) as [[Hn Hi]|(t & r & -> & Hn & Hi)].
      * left. split; [|done]. rewrite not_elem_of_cons. done.
      * right. exists (d :: t), r. split; [done|].
        split; [rewrite not_elem_of_cons; done|].
        rewrite Hi. unfold len. simpl. lia.
Qed.

Lemma indexOf_single s c :
  ((c ∉ s) /\ indexOf s [c] = -1) \/
  (exists t r, s = t ++ c :: r /\ (c ∉ t) /\ indexOf s [c] = len t).
Proof.
  unfold indexOf. destruct (indexOf_at_single s c 0) as [?|(t & r & ? & ? & ->)].
  - by left.
  - right. exists t, r. done.
Qed.

Lemma indexOf_single_absent s c : c ∉ s -> indexOf s [c] = -1.
Proof.
  intros Hn. destruct (indexOf_single s c) as [[_ ?]|(t & r & -> & _ & _)].
  - done.
  - exfalso. apply Hn. set_solver.
Qed.

Lemma indexOf_at_found t r c p :
  c ∉ t -> indexOf_at (t ++ c :: r) [c] p = p + len t.
Proof.
  revert p. induction t as [|d t IH]; intros p Hn; simpl.
  - rewrite N.eqb_refl. simpl. unfold len. simpl. lia.
  - apply not_elem_of_cons in Hn as [Hne Hn].
    destruct (N.eqb_spec c d); [done|]. simpl.
    rewrite IH by done. unfold len. simpl. lia.
Qed.

Lemma indexOf_single_found t r c :
  c ∉ t -> indexOf (t ++ c :: r) [c] = len t.
Proof. intros Hn. unfold indexOf. by rewrite indexOf_at_found. Qed.

End StringLemmas.

(** ** The bracket matcher *)

Section BracketMatcher.

Implicit Types (s t r w : jsstring) (c : N).

(** The loop of the source and the scanner of the specification agree. *)
Lemma loop_closing steps s i d :
  0 <= i -> steps = length (drop (Z.to_nat i) s) ->
  findClosingBracket_loop steps s i (Z.of_nat d) =
  match closing (drop (Z.to_nat i) s) d with
  | Some k => i + Z.of_nat k
  | None => -1
  end.
Proof.
  revert i d. induction steps as [|steps IH]; intros i d Hi Hsteps.
  - symmetry in Hsteps. apply length_zero_iff_nil in Hsteps.
    by rewrite Hsteps.
  - destruct (drop (Z.to_nat i) s) as [|c r] eqn:Hd; [done|].
    assert (Hlen : (Z.to_nat i < length s)%nat).
    { destruct (Nat.lt_ge_cases (Z.to_nat i) (length s)); [done|].
      rewrite drop_ge in Hd by lia. done. }
    assert (Hr : drop (Z.to_nat (i + 1)) s = r).
    { replace (Z.to_nat (i + 1)) with (Z.to_nat i + 1)%nat by lia.
      by rewrite <- drop_drop, Hd. }
    simpl in Hsteps. injection Hsteps as Hsteps.
    cbn [findClosingBracket_loop closing].
    destruct (Z.ltb_spec i (len s)); [|unfold len in *; lia].
    rewrite (charAt_drop s i c r Hi Hd).
    rewrite str_close_brace, str_open_brace, !same_single.
    destruct (c =? close_brace)%N.
    + destruct d as [|d].
      * simpl. lia.
      * destruct (Z.eqb_spec (Z.of_nat (S d)) 0); [lia|].
        replace (Z.of_nat (S d) - 1) with (Z.of_nat d) by lia.
        rewrite IH, Hr by (lia || congruence).
        destruct (closing r d); simpl; lia.
    + destruct (c =? open_brace)%N.
      * replace (Z.of_nat d + 1) with (Z.of_nat (S d)) by lia.
        rewrite IH, Hr by (lia || congruence).
        destruct (closing r (S d)); simpl; lia.
      * rewrite IH, Hr by (lia || congruence).
        destruct (closing r d); simpl; lia.
Qed.

Lemma findClosingBracket_closing s i :
  0 <= i ->
  findClosingBracket s i =
  match closing (drop (Z.to_nat (i + 1)) s) 0 with
  | Some k => i + 1 + Z.of_nat k
  | None => -1
  end.
Proof.
  intros Hi. unfold findClosingBracket.
  change 0 with (Z.of_nat 0) at 1.
  apply loop_closing; [lia|].
  rewrite length_drop. unfold len. lia.
Qed.

Lemma closing_lookup r d k :
  closing r d = Some k -> r !! k = Some close_brace.
Proof.
  revert d k. induction r as [|c r IH]; intros d k; simpl; [done|].
  destruct (N.eqb_spec c close_brace) as [->|_].
  - destruct d as [|d]; [by intros [= <-]|].
    destruct (closing r d) eqn:E; simpl; [|done].
    intros [= <-]. simpl. eauto.
  - destruct (c =? open_brace)%N.
    + destruct (closing r (S d)) eqn:E; simpl; [|done].
      intros [= <-]. simpl. eauto.
    + destruct (closing r d) eqn:E; simpl; [|done].
      intros [= <-]. simpl. eauto.
Qed.

Lemma closing_lt r d k : closing r d = Some k -> (k < length r)%nat.
Proof. intros H. apply closing_lookup in H. by apply lookup_lt_Some in H. Qed.

(** A scan that starts [S e] levels deeper ends where the shallower scan
    ends and a scan with counter [e] from there ends. *)
Lemma closing_add r d e :
  closing r (d + S e) =
  match closing r d with
  | Some k1 => (fun k2 => S k1 + k2)%nat <$> closing (drop (S k1) r) e
  | None => None
  end.
Proof.
  revert d. induction r as [|c r IH]; intros d; simpl; [done|].
  destruct (c =? close_brace)%N.
  - destruct d as [|d]; simpl.
    + rewrite drop_0. done.
    + rewrite IH. destruct (closing r d) as [k1|]; simpl; [|done].
      destruct (closing (drop (S k1) r) e); done.
  - destruct (c =? open_brace)%N.
    + change (S (d + S e)) with (S d + S e)%nat. rewrite IH.
      destruct (closing r (S d)) as [k1|]; simpl; [|done].
      destruct (closing (drop (S k1) r) e); done.
    + rewrite IH. destruct (closing r d) as [k1|]; simpl; [|done].
      destruct (closing (drop (S k1) r) e); done.
Qed.

(** A deeper scan that ends implies that the scan with counter 0 ends. *)
Lemma closing_shallow r d k :
  closing r d = Some k -> exists k0, closing r 0 = Some k0 /\ (k0 <= k)%nat.
Proof.
  destruct d as [|d]; [eauto|].
  change (S d) with (0 + S d)%nat. rewrite closing_add.
  destruct (closing r 0) as [k0|]; [|done].
  destruct (closing (drop (S k0) r) d); simpl; [|done].
  intros [= <-]. exists k0. split; [done|lia].
Qed.

(** Paired-up text is skipped by the scan without changing the counter. *)
Lemma closing_skip_nested w :
  nested w ->
  forall r d, closing (w ++ r) d = (fun k => length w + k)%nat <$> closing r d.
Proof.
  induction 1 as [|c w Ho Hc _ IH|w1 w2 _ IH1 _ IH2]; intros r d.
  - simpl. by destruct (closing r d).
  - simpl. apply N.eqb_neq in Ho, Hc. rewrite Ho, Hc, IH.
    by destruct (closing r d).
  - simpl. rewrite <- app_assoc. simpl. rewrite IH1. simpl.
    rewrite IH2. rewrite length_app. simpl.
    destruct (closing r d); simpl; [|done]. f_equal. lia.
Qed.

Lemma closing_nested w r :
  nested w -> closing (w ++ close_brace :: r) 0 = Some (length w).
Proof.
  intros Hw. rewrite closing_skip_nested by done. simpl. f_equal. lia.
Qed.

(** What the scan with counter 0 skipped is paired-up text. *)
Lemma closing_take_nested r k : closing r 0 = Some k -> nested (take k r).
Proof.
  revert r. induction (lt_wf k) as [k _ IH]. intros r.
  destruct r as [|c r]; simpl; [done|].
  destruct (N.eqb_spec c close_brace) as [->|Hc].
  { intros [= <-]. constructor. }
  destruct (N.eqb_spec c open_brace) as [->|Ho].
  - change 1%nat with (0 + 1)%nat. rewrite closing_add.
    destruct (closing r 0) as [k1|] eqn:E1; [|done].
    destruct (closing (drop (S k1) r) 0) as [k2|] eqn:E2; [|done].
    simpl. intros [= <-]. simpl.
    pose proof (closing_lookup _ _ _ E1) as Hk1.
    pose proof (closing_lt _ _ _ E1) as Hlt.
    replace (take (S (k1 + k2)) r)
      with (take k1 r ++ close_brace :: take k2 (drop (S k1) r)).
    + apply nested_pair; eapply IH; (lia || done).
    + replace (S (k1 + k2)) with (k1 + S k2)%nat by lia.
      rewrite <- take_take_drop. f_equal.
      rewrite (drop_S _ _ _ Hk1). done.
  - destruct (closing r 0) as [k1|] eqn:E1; [|done].
    simpl. intros [= <-]. simpl. apply nested_char; [done..|].
    eapply IH; (lia || done).
Qed.

(** Where a scan that ends has got to after [p] characters. *)
Lemma closing_walk r d k p :
  closing r d = Some k -> (p <= k)%nat ->
  exists d', closing (drop p r) d' = Some (k - p)%nat.
Proof.
  revert r d k. induction p as [|p IH]; intros r d k Hk Hp.
  - exists d. by rewrite drop_0, Nat.sub_0_r.
  - destruct r as [|c r]; [done|]. simpl in Hk |- *.
    destruct (c =? close_brace)%N.
    + destruct d as [|d]; [injection Hk as <-; lia|].
      destruct (closing r d) as [k'|] eqn:E; [|done].
      injection Hk as <-. eapply (IH _ _ k'); [done|lia].
    + destruct (c =? open_brace)%N.
      * destruct (closing r (S d)) as [k'|] eqn:E; [|done].
        injection Hk as <-. eapply (IH _ _ k'); [done|lia].
      * destruct (closing r d) as [k'|] eqn:E; [|done].
        injection Hk as <-. eapply (IH _ _ k'); [done|lia].
Qed.

(** Inside a block that closes, every opening brace is matched. *)
Lemma closing_inner r d k p :
  closing r d = Some k -> (p < k)%nat -> r !! p = Some open_brace ->
  exists k', closing (drop (S p) r) 0 = Some k'.
Proof.
  intros Hk Hp Hl.
  destruct (closing_walk r d k p Hk) as [d' Hd']; [lia|].
  rewrite (drop_S _ _ _ Hl) in Hd'. simpl in Hd'.
  destruct (closing (drop (S p) r) (S d')) as [k1|] eqn:E; [|done].
  destruct (closing_shallow _ _ _ E) as (k0 & Hk0 & _). eauto.
Qed.

Lemma unmatched_lookup s :
  unmatched s <->
  exists n, s !! n = Some open_brace /\ closing (drop (S n) s) 0 = None.
Proof.
  unfold unmatched. rewrite str_open_brace. split.
  - intros (i & Hc & Hf). apply charAt_lookup in Hc as [Hi Hl].
    rewrite findClosingBracket_closing in Hf by done.
    replace (Z.to_nat (i + 1)) with (S (Z.to_nat i)) in Hf by lia.
    exists (Z.to_nat i). split; [done|].
    destruct (closing _ 0); [lia|done].
  - intros (n & Hl & Hc). exists (Z.of_nat n). split.
    + apply charAt_lookup. rewrite Nat2Z.id. split; [lia|done].
    + rewrite findClosingBracket_closing by lia.
      replace (Z.to_nat (Z.of_nat n + 1)) with (S n) by lia.
      by rewrite Hc.
Qed.

(** An unmatched opening brace lies after the first block when that block
    closes. *)
Lemma unmatched_tail t r k :
  open_brace ∉ t -> closing r 0 = Some k ->
  unmatched (t ++ open_brace :: r) -> unmatched (drop (S k) r).
Proof.
  intros Hn Hk. rewrite !unmatched_lookup. intros (n & Hl & Hc).
  pose proof (closing_lookup _ _ _ Hk) as Hclose.
  destruct (Nat.lt_trichotomy n (length t)) as [Hlt|[->|Hgt]].
  - rewrite lookup_app_l in Hl by done.
    apply list_elem_of_lookup_2 in Hl. done.
  - replace (S (length t)) with (length t + 1)%nat in Hc by lia.
    rewrite <- drop_drop, drop_app_length in Hc. simpl in Hc.
    rewrite drop_0 in Hc. congruence.
  - set (p := (n - length t - 1)%nat).
    assert (Hp : r !! p = Some open_brace).
    { rewrite lookup_app_r in Hl by lia.
      replace (n - length t)%nat with (S p) in Hl by lia. done. }
    assert (Hdrop : drop (S n) (t ++ open_brace :: r) = drop (S p) r).
    { replace (S n) with (length t + S (S p))%nat by lia.
      rewrite <- drop_drop, drop_app_length. done. }
    rewrite Hdrop in Hc.
    destruct (Nat.lt_trichotomy p k) as [Hlt|[->|Hpk]].
    + destruct (closing_inner r 0 k p Hk Hlt Hp) as [k' Hk']. congruence.
    + rewrite Hclose in Hp. done.
    + exists (p - S k)%nat. split.
      * rewrite lookup_drop, <- Hp. f_equal. lia.
      * rewrite drop_drop. replace (S k + S (p - S k))%nat with (S p) by lia.
        done.
Qed.

End BracketMatcher.

(** ** The argument splitter *)

Section Splitter.

Implicit Types (s t r : jsstring) (c : N).

Lemma length_trimStart s : (length (trimStart s) <= length s)%nat.
Proof.
  induction s as [|c s IH]; simpl; [lia|].
  destruct (is_whitespace c); simpl; lia.
Qed.

Lemma length_trim s : (length (trim s) <= length s)%nat.
Proof.
  unfold trim, trimEnd. rewrite length_rev.
  etransitivity; [apply length_trimStart|].
  rewrite length_rev. apply length_trimStart.
Qed.

Lemma indexOf_at_range s search p :
  indexOf_at s search p = -1 \/ p <= indexOf_at s search p.
Proof.
  revert p. induction s as [|c s IH]; intros p; simpl.
  - destruct (starts_with [] search); lia.
  - destruct (starts_with (c :: s) search); [lia|].
    destruct (IH (p + 1)); lia.
Qed.

Lemma indexOf_range s search : indexOf s search = -1 \/ 0 <= indexOf s search.
Proof. apply indexOf_at_range. Qed.

(** The string handed to the recursive call of [split] is shorter. *)
Lemma split_tail_shorter s separator :
  truthy s = true -> indexOf s separator <> -1 ->
  (length (trim (substring_from s (indexOf s separator + len separator + 1)))
   < length s)%nat.
Proof.
  intros Hs Hi. apply truthy_length in Hs.
  destruct (indexOf_range s separator) as [|Hge]; [done|].
  pose proof (len_nonneg separator).
  eapply Nat.le_lt_trans; [apply length_trim|].
  rewrite substring_from_drop by lia. rewrite length_drop. lia.
Qed.

Lemma split_bounded_enough n m s separator limit accumulator :
  (length s <= n)%nat -> (length s <= m)%nat ->
  split_bounded n s separator limit accumulator =
  split_bounded m s separator limit accumulator.
Proof.
  revert m s limit accumulator.
  induction n as [|n IH]; intros m s limit accumulator Hn Hm.
  - destruct s; [|simpl in Hn; lia]. by destruct m.
  - destruct m as [|m].
    { destruct s; [done | simpl in Hm; lia]. }
    simpl. destruct (truthy s) eqn:Hs; simpl; [|done].
    destruct (limit =? 1); [done|].
    destruct (Z.eqb_spec (indexOf s separator) (-1)) as [|Hi]; [done|].
    pose proof (split_tail_shorter s separator Hs Hi).
    apply IH; lia.
Qed.

(** [split] satisfies the recursion of the source. *)
Lemma split_equation s separator limit accumulator :
  split s separator limit accumulator =
  if negb (truthy s) then accumulator
  else if limit =? 1 then accumulator ++ [s]
  else
    let indexOfDelimiter := indexOf s separator in
    if indexOfDelimiter =? -1 then accumulator ++ [s]
    else
      let head := trim (substring s 0 indexOfDelimiter) in
      let tail :=
        trim (substring_from s (indexOfDelimiter + len separator + 1)) in
      split tail separator (limit - 1) (accumulator ++ [head]).
Proof.
  unfold split. destruct s as [|c s]; [done|].
  cbn [length split_bounded truthy negb].
  destruct (limit =? 1); [done|].
  destruct (Z.eqb_spec (indexOf (c :: s) separator) (-1)) as [|Hi]; [done|].
  cbv zeta.
  pose proof (split_tail_shorter (c :: s) separator eq_refl Hi) as Hlt.
  apply split_bounded_enough; simpl in *; lia.
Qed.

Lemma slice_block s :
  slice (open_brace :: s ++ [close_brace]) 1 (-1) = s.
Proof.
  rewrite slice_interior by (simpl; rewrite length_app; simpl; lia).
  simpl. rewrite drop_0, length_app. simpl.
  replace (length s + 1 - 1)%nat with (length s) by lia.
  apply take_app_length.
Qed.

Lemma split_bounded_accumulator n s separator limit accumulator :
  split_bounded n s separator limit accumulator =
  accumulator ++ split_bounded n s separator limit [].
Proof.
  revert s limit accumulator.
  induction n as [|n IH]; intros s limit accumulator; simpl.
  - by rewrite app_nil_r.
  - destruct (truthy s); simpl; [|by rewrite app_nil_r].
    destruct (limit =? 1); [done|].
    destruct (indexOf s separator =? -1); [done|].
    rewrite IH. rewrite (IH _ _ [_]). by rewrite <- app_assoc.
Qed.

End Splitter.

(** ** The message processor: one step *)

Section ProcessStep.

Context (typeHandlers : gmap jsstring typeHandler).
Implicit Types (message t r : jsstring) (values : gmap jsstring value).

Lemma process_empty fuel values locale :
  process typeHandlers (S fuel) [] values locale = Returned [].
Proof. done. Qed.

Lemma process_no_block fuel message values locale :
  message <> [] -> open_brace ∉ message ->
  process typeHandlers (S fuel) message values locale =
  Returned [decorateMessageString message].
Proof.
  intros Hm Hn. apply truthy_true in Hm.
  cbn [process]. rewrite Hm. cbn [negb]. cbv zeta.
  rewrite str_open_brace, indexOf_single_absent by done. done.
Qed.

(** The shape of a message with a first block. *)
Lemma has_block_shape message :
  has_block message ->
  exists t r k,
    message = t ++ open_brace :: r /\ (open_brace ∉ t) /\
    closing r 0 = Some k /\
    indexOf message (str "{") = len t /\
    findClosingBracket message (len t) = len t + 1 + Z.of_nat k.
Proof.
  intros [Hs He]. rewrite str_open_brace in *.
  destruct (indexOf_single message open_brace)
    as [[_ Hi]|(t & r & -> & Hn & Hi)]; [done|].
  rewrite Hi in He |- *. exists t, r.
  pose proof (len_nonneg t).
  rewrite findClosingBracket_closing in He |- * by done.
  replace (drop (Z.to_nat (len t + 1)) (t ++ open_brace :: r)) with r in *.
  - destruct (closing r 0) as [k|]; [|done]. by exists k.
  - replace (Z.to_nat (len t + 1)) with (length t + 1)%nat
      by (unfold len; lia).
    rewrite <- drop_drop, drop_app_length. done.
Qed.

Lemma block_pieces t r k :
  open_brace ∉ t -> closing r 0 = Some k ->
  let message := t ++ open_brace :: r in
  indexOf message (str "{") = len t /\
  findClosingBracket message (len t) = len t + 1 + Z.of_nat k /\
  block_of message = open_brace :: take (S k) r /\
  head_of message = t /\
  tail_of message = drop (S k) r.
Proof.
  intros Hn Hk message. pose proof (len_nonneg t) as Ht.
  pose proof (closing_lt _ _ _ Hk) as Hlt.
  assert (Hs : indexOf message (str "{") = len t).
  { rewrite str_open_brace. by apply indexOf_single_found. }
  assert (Hd : drop (length t) message = open_brace :: r).
  { apply drop_app_length. }
  assert (He : findClosingBracket message (len t) = len t + 1 + Z.of_nat k).
  { rewrite findClosingBracket_closing by done.
    replace (Z.to_nat (len t + 1)) with (length t + 1)%nat
      by (unfold len; lia).
    rewrite <- drop_drop, Hd. simpl. rewrite drop_0, Hk. done. }
  assert (Hlen : len message = len t + 1 + len r).
  { unfold message. rewrite len_app. unfold len. simpl length. lia. }
  split; [done|]. split; [done|].
  unfold block_of, head_of, tail_of. rewrite Hs, He. cbv zeta.
  pose proof (len_nonneg r).
  split; [|split].
  - rewrite substring_take_drop by (unfold len in *; lia).
    replace (Z.to_nat (len t)) with (length t) by (unfold len; lia).
    rewrite Hd.
    replace (Z.to_nat (len t + 1 + Z.of_nat k + 1 - len t)) with (S (S k))
      by lia.
    done.
  - rewrite substring_prefix by lia.
    replace (Z.to_nat (len t)) with (length t) by (unfold len; lia).
    apply take_app_length.
  - rewrite substring_from_drop by lia.
    replace (Z.to_nat (len t + 1 + Z.of_nat k + 1))
      with (length t + S (S k))%nat by (unfold len; lia).
    rewrite <- drop_drop, Hd. done.
Qed.

(** One call of [process] on a message with a block: the handler of the
    block's type, if there is one, gives the value of the placeholder node;
    [emit] does the rest. *)
Lemma process_block fuel message values locale :
  has_block message ->
  process typeHandlers (S fuel) message values locale =
  let parts := splitFormattedArgument (block_of message) in
  let body := body_of values (parts !! 0%nat) in
  do v <- match handler_for typeHandlers (parts !! 1%nat) with
          | Some handler =>
              handler body (parts !! 2%nat) values locale
                (process typeHandlers fuel)
          | None => Returned body
          end ;
  emit typeHandlers fuel message values locale v.
Proof.
  intros Hb. pose proof Hb as [Hs He].
  destruct (has_block_shape message Hb) as (t & r & k & -> & Hn & Hk & _).
  destruct (block_pieces t r k Hn Hk) as (Hi & Hc & Hblock & Hhead & Htail).
  cbn [process].
  assert (Hm : truthy (t ++ open_brace :: r) = true) by (by destruct t).
  rewrite Hm. cbn [negb]. cbv zeta.
  destruct (Z.eqb_spec (indexOf (t ++ open_brace :: r) (str "{")) (-1));
    [done|].
  cbn [negb].
  destruct (Z.eqb_spec (findClosingBracket (t ++ open_brace :: r)
    (indexOf (t ++ open_brace :: r) (str "{"))) (-1)); [done|].
  cbn [negb]. unfold emit.
  fold (block_of (t ++ open_brace :: r)).
  fold (head_of (t ++ open_brace :: r)). fold (tail_of (t ++ open_brace :: r)).
  rewrite Hblock. cbn [truthy]. cbv zeta.
  destruct (handler_for _ _) as [handler|]; cbn [bind]; [|done].
  destruct (handler _ _ _ _ _); done.
Qed.

Lemma process_unbalanced fuel message values locale :
  indexOf message (str "{") <> -1 ->
  findClosingBracket message (indexOf message (str "{")) = -1 ->
  process typeHandlers (S fuel) message values locale =
  Thrown (unbalanced_error message).
Proof.
  intros Hs He. cbn [process].
  destruct message as [|c message]; [done|].
  cbn [truthy negb]. cbv zeta.
  destruct (Z.eqb_spec (indexOf (c :: message) (str "{")) (-1)); [done|].
  cbn [negb]. rewrite He. done.
Qed.

End ProcessStep.

(** ** Properties of the bracket matcher *)

(** C4. For every string and every index [i] of an opening brace in it,
    [findClosingBracket] is the scan of the characters after [i] with a
    nesting counter that starts at 0, is incremented on an opening brace and,
    on a closing brace, ends the scan when it is 0 and is decremented
    otherwise. Its result is the index of the matching closing brace, the one
    that paired-up text separates from [i], and [-1] exactly when the string
    has no such closing brace. *)
Theorem findClosingBracket_matching (s : jsstring) (i : Z) :
  charAt s i = str "{" ->
  findClosingBracket s i =
    match closing (drop (Z.to_nat (i + 1)) s) 0 with
    | Some k => i + 1 + Z.of_nat k
    | None => -1
    end
  /\ (forall j, j <> -1 ->
        findClosingBracket s i = j <->
        i < j /\ charAt s j = str "}" /\ nested (substring s (i + 1) j))
  /\ (findClosingBracket s i = -1 <->
      forall j, i < j -> charAt s j = str "}" ->
                ~ nested (substring s (i + 1) j)).
Proof.
  intros Hi. rewrite str_open_brace in Hi.
  apply charAt_lookup in Hi as [Hi Hopen].
  pose proof (findClosingBracket_closing s i Hi) as Hscan.
  set (r := drop (Z.to_nat (i + 1)) s) in *.
  assert (Hfound : forall k, closing r 0 = Some k ->
    let j := i + 1 + Z.of_nat k in
    i < j /\ charAt s j = str "}" /\ nested (substring s (i + 1) j)).
  { intros k Hk j. subst j.
    pose proof (closing_lookup _ _ _ Hk) as Hl.
    pose proof (closing_lt _ _ _ Hk) as Hlt.
    unfold r in Hl, Hlt. rewrite lookup_drop in Hl.
    rewrite length_drop in Hlt.
    split; [lia|]. split.
    - rewrite str_close_brace. apply charAt_lookup. split; [lia|].
      rewrite <- Hl. f_equal. lia.
    - rewrite substring_take_drop by (unfold len; lia).
      replace (Z.to_nat (i + 1 + Z.of_nat k - (i + 1))) with k by lia.
      by apply closing_take_nested. }
  assert (Hunique : forall j,
    i < j -> charAt s j = str "}" -> nested (substring s (i + 1) j) ->
    closing r 0 = Some (Z.to_nat (j - (i + 1)))).
  { intros j Hj Hc Hn. rewrite str_close_brace in Hc.
    apply charAt_lookup in Hc as [_ Hc].
    pose proof (lookup_lt_Some _ _ _ Hc) as Hlt.
    rewrite substring_take_drop in Hn by (unfold len; lia).
    fold r in Hn. set (k := Z.to_nat (j - (i + 1))) in *.
    assert (Hk : r !! k = Some close_brace).
    { unfold r. rewrite lookup_drop, <- Hc. f_equal. lia. }
    rewrite <- (take_drop k r), (drop_S _ _ _ Hk).
    rewrite closing_nested by done.
    rewrite length_take. apply lookup_lt_Some in Hk. f_equal. lia. }
  split; [done|]. split.
  - intros j Hj. split.
    + intros <-. rewrite Hscan in Hj |- *.
      destruct (closing r 0) as [k|]; [|done]. by apply Hfound.
    + intros (Hlt & Hc & Hn). rewrite Hscan, (Hunique j) by done. lia.
  - split.
    + intros Hnone j Hlt Hc Hn. rewrite Hscan, (Hunique j) in Hnone by done.
      lia.
    + intros Hnone. rewrite Hscan.
      destruct (closing r 0) as [k|] eqn:Hk; [|done].
      destruct (Hfound k eq_refl) as (Hlt & Hc & Hn).
      exfalso. by apply (Hnone (i + 1 + Z.of_nat k)).
Qed.

Lemma findClosingBracket_matching_witness :
  findClosingBracket (str "{a{b}c}d") 0 =
    match closing (drop (Z.to_nat (0 + 1)) (str "{a{b}c}d")) 0 with
    | Some k => 0 + 1 + Z.of_nat k
    | None => -1
    end
  /\ (forall j, j <> -1 ->
        findClosingBracket (str "{a{b}c}d") 0 = j <->
        0 < j /\ charAt (str "{a{b}c}d") j = str "}" /\
        nested (substring (str "{a{b}c}d") (0 + 1) j))
  /\ (findClosingBracket (str "{a{b}c}d") 0 = -1 <->
      forall j, 0 < j -> charAt (str "{a{b}c}d") j = str "}" ->
                ~ nested (substring (str "{a{b}c}d") (0 + 1) j)).
Proof. apply (findClosingBracket_matching (str "{a{b}c}d") 0). reflexivity. Defined.

(** ** Properties of the argument splitter *)

(** A string without the separator is pushed as it is. *)
Lemma split_without_separator (s separator : jsstring) (limit : Z)
    (accumulator : list jsstring) :
  s <> [] -> indexOf s separator = -1 ->
  split s separator limit accumulator = accumulator ++ [s].
Proof.
  intros Hs Hi. rewrite split_equation. apply truthy_true in Hs.
  rewrite Hs, Hi. cbn. by destruct (limit =? 1).
Qed.

(** C2. [split] resumes one code unit after the separator: on "a,b" with the
    separator "," and limit 3 it yields the single part "a". *)
Theorem split_resumes_past_separator :
  split (str "a,b") (str ",") 3 [] = [str "a"].
Proof. vm_compute. reflexivity. Qed.

(** C3. A block without a comma yields its interior as it stands:
    "{ key }" gives the part " key ", spaces included. *)
Theorem splitFormattedArgument_single_part_verbatim :
  splitFormattedArgument (str "{ key }") = [str " key "].
Proof. vm_compute. reflexivity. Qed.

(** C9. The block "{k, type, {nested} text}" splits into exactly three parts
    and the third is "{nested} text". *)
Theorem splitFormattedArgument_nested_format :
  splitFormattedArgument (str "{k, type, {nested} text}") =
  [str "k"; str "type"; str "{nested} text"].
Proof. vm_compute. reflexivity. Qed.

(** ** The string renderer *)

Section Renderer.

Implicit Types (array : list value) (v : value).

(** [extractValues] is the [reduce] of the source: each element contributes
    the extraction of its [value] property when that is an array, the
    property itself otherwise. *)
Lemma extractValues_element_equation element :
  extractValues_element element =
  do v <- get element (str "value") ;
  match v with
  | VArray items => extractValues items
  | _ => Returned [v]
  end.
Proof.
  destruct element as [| | | | |props| |]; try done.
  cbn [extractValues_element get bind].
  induction props as [|[n v] props IH]; [done|].
  cbn [lookup_property]. destruct (same n (str "value")); [|done].
  by destruct v.
Qed.

Lemma extractValues_app array1 array2 :
  extractValues (array1 ++ array2) =
  do x <- extractValues array1 ;
  do y <- extractValues array2 ;
  Returned (x ++ y).
Proof.
  induction array1 as [|e array1 IH]; simpl.
  - by destruct (extractValues array2).
  - destruct (extractValues_element e) as [x| |]; simpl; [|done..].
    rewrite IH. destruct (extractValues array1) as [y| |]; simpl; [|done..].
    destruct (extractValues array2) as [z| |]; simpl; [|done..].
    by rewrite app_assoc.
Qed.

Lemma extractValues_message_node s :
  extractValues_element (decorateMessageString s) = Returned [VString s].
Proof. reflexivity. Qed.

Lemma extractValues_string_node key type s :
  extractValues_element (decorateValue key type (VString s)) =
  Returned [VString s].
Proof. reflexivity. Qed.

Lemma join_empty_separator (parts : list jsstring) :
  join parts [] = concat parts.
Proof.
  induction parts as [|p parts IH]; [done|].
  simpl. rewrite <- IH. destruct parts; [|done].
  simpl. by rewrite app_nil_r.
Qed.

Lemma array_join_app array1 array2 :
  array_join (array1 ++ array2) [] =
  array_join array1 [] ++ array_join array2 [].
Proof.
  unfold array_join. rewrite !join_empty_separator, map_app.
  apply concat_app.
Qed.

Lemma source_of_message_node s :
  get (decorateMessageString s) (str "source") =
  Returned (VString (str "message")).
Proof. reflexivity. Qed.

Lemma source_of_value_node key type v :
  get (decorateValue key type v) (str "source") =
  Returned (VString (str "value")).
Proof. reflexivity. Qed.

Lemma value_of_value_node key type v :
  get (decorateValue key type v) (str "value") = Returned v.
Proof. reflexivity. Qed.

End Renderer.

(** ** Properties of the message processor *)

Section Processor.

Context (typeHandlers : gmap jsstring typeHandler).
Implicit Types (message t r : jsstring) (values : gmap jsstring value).

Lemma brace_indices t r :
  open_brace ∉ t ->
  indexOf (t ++ open_brace :: r) (str "{") = len t /\
  findClosingBracket (t ++ open_brace :: r) (len t) =
    match closing r 0 with
    | Some k => len t + 1 + Z.of_nat k
    | None => -1
    end.
Proof.
  intros Hn. rewrite str_open_brace. split; [by apply indexOf_single_found|].
  pose proof (len_nonneg t).
  rewrite findClosingBracket_closing by done.
  replace (Z.to_nat (len t + 1)) with (length t + 1)%nat by (unfold len; lia).
  rewrite <- drop_drop, drop_app_length. simpl. by rewrite drop_0.
Qed.

Lemma shape_has_block t r k :
  open_brace ∉ t -> closing r 0 = Some k -> has_block (t ++ open_brace :: r).
Proof.
  intros Hn Hk. destruct (brace_indices t r Hn) as [Hi He].
  pose proof (len_nonneg t). unfold has_block. rewrite Hi, He, Hk. lia.
Qed.

(** The four ways a call of [process] can go. *)
Lemma message_cases message :
  message = [] \/
  (message <> [] /\ (open_brace ∉ message)) \/
  (exists t r, message = t ++ open_brace :: r /\ (open_brace ∉ t) /\
               closing r 0 = None) \/
  (exists t r k, message = t ++ open_brace :: r /\ (open_brace ∉ t) /\
                 closing r 0 = Some k).
Proof.
  destruct message as [|c message]; [by left|]. right.
  destruct (indexOf_single (c :: message) open_brace)
    as [[Hn _]|(t & r & -> & Hn & _)]; [by left|].
  right. destruct (closing r 0) as [k|] eqn:Hk; [right|left]; eauto 10.
Qed.

Lemma process_unclosed fuel t r values locale :
  open_brace ∉ t -> closing r 0 = None ->
  process typeHandlers (S fuel) (t ++ open_brace :: r) values locale =
  Thrown (unbalanced_error (t ++ open_brace :: r)).
Proof.
  intros Hn Hk. destruct (brace_indices t r Hn) as [Hi He].
  apply process_unbalanced; rewrite Hi.
  - pose proof (len_nonneg t). lia.
  - by rewrite He, Hk.
Qed.

Lemma message_node_source s : node_source_regular (decorateMessageString s).
Proof. split; [by left|]. vm_compute. discriminate. Qed.

Lemma value_node_source key type v :
  node_source_regular (decorateValue key type v).
Proof. split; [by right|]. vm_compute. discriminate. Qed.

(** C10. Every node of a sequence that [process] returns has the [source]
    "message" or "value"; none has [SOURCE_PLACEHOLDER], "placeholder". *)
Theorem process_node_sources (fuel : nat) message values locale
    (nodes : list value) :
  process typeHandlers fuel message values locale = Returned nodes ->
  Forall node_source_regular nodes.
Proof.
  revert message nodes. induction fuel as [|fuel IH]; intros message nodes;
    [done|].
  destruct (message_cases message)
    as [->|[[Hm Hn]|[(t & r & -> & Hn & Hk)|(t & r & k & -> & Hn & Hk)]]].
  - intros [= <-]. constructor.
  - rewrite process_no_block by done. intros [= <-].
    constructor; [apply message_node_source | constructor].
  - by rewrite process_unclosed.
  - rewrite process_block by (by eapply shape_has_block). cbv zeta.
    destruct (match handler_for _ _ with Some _ => _ | None => _ end)
      as [v| |]; [|done..].
    cbn [bind]. unfold emit. cbv zeta.
    set (head := head_of _). set (parts := splitFormattedArgument _).
    assert (Hhead : Forall node_source_regular
      ((if truthy head then [decorateMessageString head] else []) ++
       [decorateValue (parts !! 0%nat) (parts !! 1%nat) v])).
    { apply Forall_app. split.
      - destruct (truthy _); [|constructor].
        constructor; [apply message_node_source | constructor].
      - constructor; [apply value_node_source | constructor]. }
    destruct (truthy (tail_of _)).
    + destruct (process _ fuel _ _ _) as [rest| |] eqn:Hrest; [|done..].
      cbn [bind]. intros [= <-]. apply Forall_app. split; [done|].
      by eapply IH.
    + by intros [= <-].
Qed.

(** C8. A message without an opening brace formats to itself under the empty
    values map. *)
Theorem format_without_placeholders (fuel : nat) message locale :
  open_brace ∉ message ->
  format typeHandlers (S fuel) message ∅ locale = Returned message.
Proof.
  intros Hn. unfold format. destruct message as [|c message]; [done|].
  rewrite process_no_block by done. cbn [bind extractValues].
  rewrite extractValues_message_node. cbn [bind app].
  unfold array_join. simpl. done.
Qed.

(** [emit] returns exactly when the tail, if there is one, is processed:
    the placeholder node follows the literal head and precedes the nodes of
    the tail. *)
Lemma emit_returns fuel message values locale v nodes :
  emit typeHandlers fuel message values locale v = Returned nodes <->
  exists rest,
    (if truthy (tail_of message)
     then process typeHandlers fuel (tail_of message) values locale
     else Returned []) = Returned rest /\
    nodes =
      (if truthy (head_of message)
       then [decorateMessageString (head_of message)] else []) ++
      decorateValue (splitFormattedArgument (block_of message) !! 0%nat)
                    (splitFormattedArgument (block_of message) !! 1%nat) v
      :: rest.
Proof.
  unfold emit. cbv zeta. destruct (truthy (tail_of message)).
  - destruct (process _ _ _ _ _) as [rest| |]; cbn [bind].
    + rewrite <- app_assoc. split.
      * intros [= <-]. by exists rest.
      * intros (rest' & [= <-] & ->). done.
    + split; [done|]. by intros (? & ? & _).
    + split; [done|]. by intros (? & ? & _).
  - split.
    + intros [= <-]. by exists [].
    + intros (rest' & [= <-] & ->). done.
Qed.

(** An error thrown by the handler of a block is the outcome of the call. *)
Lemma process_handler_throws fuel message values locale handler e :
  has_block message ->
  let parts := splitFormattedArgument (block_of message) in
  handler_for typeHandlers (parts !! 1%nat) = Some handler ->
  handler (body_of values (parts !! 0%nat)) (parts !! 2%nat) values locale
    (process typeHandlers fuel) = Thrown e ->
  process typeHandlers (S fuel) message values locale = Thrown e.
Proof.
  intros Hb parts Hh He. rewrite process_block by done. cbv zeta.
  fold parts. by rewrite Hh, He.
Qed.

(** C7. A block whose type part is absent (left undefined by the split, or
    empty) or names a type under which the registry reads nothing, no
    registered handler and no member of [Object.prototype], gives a node
    whose value is the resolved value, and the call does not fail on its
    account. A block whose type names a registered handler gives a node whose
    value is that handler applied to the resolved value, the format part, the
    values map, the locale and the processor itself; a type that names no
    registered handler but a member of [Object.prototype] has that member
    called the same way. *)
Theorem placeholder_dispatch (fuel : nat) message values locale :
  has_block message ->
  let parts := splitFormattedArgument (block_of message) in
  let key := parts !! 0%nat in
  let type := parts !! 1%nat in
  let format := parts !! 2%nat in
  let body := body_of values key in
  ((type = None \/ type = Some [] \/
    (exists t, type = Some t /\ typeHandlers !! t = None /\
               Object_prototype_call t = None)) ->
   process typeHandlers (S fuel) message values locale =
   emit typeHandlers fuel message values locale body) /\
  (forall t handler,
     type = Some t -> t <> [] -> typeHandlers !! t = Some handler ->
     process typeHandlers (S fuel) message values locale =
     do v <- handler body format values locale (process typeHandlers fuel) ;
     emit typeHandlers fuel message values locale v) /\
  (forall t member,
     type = Some t -> t <> [] -> typeHandlers !! t = None ->
     Object_prototype_call t = Some member ->
     process typeHandlers (S fuel) message values locale =
     do v <- member body format values locale (process typeHandlers fuel) ;
     emit typeHandlers fuel message values locale v) /\
  (forall v nodes,
     emit typeHandlers fuel message values locale v = Returned nodes ->
     decorateValue key type v ∈ nodes /\
     get (decorateValue key type v) (str "value") = Returned v).
Proof.
  intros Hb parts key type format body.
  pose proof (process_block typeHandlers fuel message values locale Hb) as Hp.
  cbv zeta in Hp. fold parts key type format body in Hp.
  fold key type format in Hp. split; [|split; [|split]].
  - intros Htype. rewrite Hp. fold type.
    assert (handler_for typeHandlers type = None) as ->; [|done].
    destruct Htype as [->|[->|(t & -> & Ht & Hproto)]]; [done..|].
    unfold handler_for, read_handler. rewrite Ht, Hproto.
    by destruct (truthy t).
  - intros t handler Ht Hne Hh. rewrite Hp. fold type. rewrite Ht.
    unfold handler_for, read_handler.
    apply truthy_true in Hne. rewrite Hne, Hh. done.
  - intros t member Ht Hne Hh Hm. rewrite Hp. fold type. rewrite Ht.
    unfold handler_for, read_handler.
    apply truthy_true in Hne. rewrite Hne, Hh, Hm. done.
  - intros v nodes Hnodes. split; [|done].
    apply emit_returns in Hnodes as (rest & _ & ->).
    apply elem_of_app. right. apply elem_of_cons. by left.
Qed.

(** C6. A block whose key names nothing that [values[key]] reads, no own
    property of the values object and no member of [Object.prototype], or a
    property that holds [null] or [undefined], resolves to the empty string:
    that is what the handler of its type receives and, without a handler,
    what its node carries, the call returning as soon as the tail is
    processed. And [format] of "{missing}" with the empty values object is
    the empty string. *)
Theorem missing_value_is_empty_string :
  (forall (fuel : nat) message values locale,
     has_block message ->
     let parts := splitFormattedArgument (block_of message) in
     let key := parts !! 0%nat in
     let type := parts !! 1%nat in
     let format := parts !! 2%nat in
     ((values !! property_key key = None /\
       Object_prototype_get (property_key key) = VUndefined) \/
      values !! property_key key = Some VNull \/
      values !! property_key key = Some VUndefined) ->
     body_of values key = VString [] /\
     process typeHandlers (S fuel) message values locale =
     (do v <- match handler_for typeHandlers type with
              | Some handler =>
                  handler (VString []) format values locale
                    (process typeHandlers fuel)
              | None => Returned (VString [])
              end ;
      emit typeHandlers fuel message values locale v) /\
     (handler_for typeHandlers type = None ->
      forall rest,
        (if truthy (tail_of message)
         then process typeHandlers fuel (tail_of message) values locale
         else Returned []) = Returned rest ->
        process typeHandlers (S fuel) message values locale =
        Returned
          ((if truthy (head_of message)
            then [decorateMessageString (head_of message)] else []) ++
           decorateValue key type (VString []) :: rest))) /\
  (forall (fuel : nat) locale,
     format typeHandlers (S fuel) (str "{missing}") ∅ locale = Returned []).
Proof.
  split.
  - intros fuel message values locale Hb parts key type format Hmissing.
    assert (Hbody : body_of values key = VString []).
    { unfold body_of, read_property.
      by destruct Hmissing as [[-> ->]|[->| ->]]. }
    split; [done|].
    assert (Hp : process typeHandlers (S fuel) message values locale =
      do v <- match handler_for typeHandlers type with
              | Some handler =>
                  handler (VString []) format values locale
                    (process typeHandlers fuel)
              | None => Returned (VString [])
              end ;
      emit typeHandlers fuel message values locale v).
    { rewrite process_block by done. cbv zeta.
      fold parts key type format. fold key. by rewrite Hbody. }
    split; [done|].
    intros Hnone rest Hrest. rewrite Hp, Hnone. cbn [bind].
    apply emit_returns. by exists rest.
  - intros fuel locale. vm_compute. reflexivity.
Qed.

End Processor.

(** ** The blocks of a message *)

Section Segments.

Implicit Types (message t r : jsstring).

Lemma segments_literal t r :
  open_brace ∉ t ->
  segments_from (t ++ r) 0 [] = map Literal t ++ segments_from r 0 [].
Proof.
  induction t as [|c t IH]; intros Hn; [done|].
  apply not_elem_of_cons in Hn as [Hc Hn]. simpl.
  destruct (N.eqb_spec c open_brace); [done|]. by rewrite IH.
Qed.

Lemma segments_closing r d k block :
  closing r d = Some k ->
  segments_from r (S d) block =
  Placeholder (block ++ take (S k) r) :: segments_from (drop (S k) r) 0 [].
Proof.
  revert d k block. induction r as [|c r IH]; intros d k block; [done|].
  cbn [closing segments_from].
  destruct (c =? close_brace)%N.
  - destruct d as [|d]; [by intros [= <-]|].
    destruct (closing r d) as [k'|] eqn:E; [|done]. intros [= <-].
    rewrite (IH _ _ _ E). cbn [take drop]. by rewrite <- app_assoc.
  - destruct (c =? open_brace)%N.
    + destruct (closing r (S d)) as [k'|] eqn:E; [|done]. intros [= <-].
      rewrite (IH _ _ _ E). cbn [take drop]. by rewrite <- app_assoc.
    + destruct (closing r d) as [k'|] eqn:E; [|done]. intros [= <-].
      rewrite (IH _ _ _ E). cbn [take drop]. by rewrite <- app_assoc.
Qed.

Lemma segments_block t r k :
  open_brace ∉ t -> closing r 0 = Some k ->
  segments (t ++ open_brace :: r) =
  map Literal t ++
  Placeholder (open_brace :: take (S k) r) :: segments (drop (S k) r).
Proof.
  intros Hn Hk. unfold segments. rewrite segments_literal by done.
  f_equal. simpl. by rewrite (segments_closing _ _ _ _ Hk).
Qed.

Lemma blocks_literal t :
  flat_map (fun seg =>
              match seg with
              | Literal _ => []
              | Placeholder block => [block]
              end) (map Literal t) = [].
Proof. by induction t. Qed.

Lemma blocks_no_block message : open_brace ∉ message -> blocks message = [].
Proof.
  intros Hn. unfold blocks, segments. rewrite <- (app_nil_r message).
  rewrite segments_literal by done. simpl. rewrite app_nil_r.
  apply blocks_literal.
Qed.

(** The first block of a message and the blocks of its tail. *)
Lemma blocks_block t r k :
  open_brace ∉ t -> closing r 0 = Some k ->
  blocks (t ++ open_brace :: r) =
  (open_brace :: take (S k) r) :: blocks (drop (S k) r).
Proof.
  intros Hn Hk. unfold blocks. rewrite (segments_block t r k Hn Hk).
  by rewrite flat_map_app, blocks_literal.
Qed.

(** The blocks before an opening brace that nothing closes. *)
Lemma blocks_unclosed t r :
  open_brace ∉ t -> closing r 0 = None -> blocks (t ++ open_brace :: r) = [].
Proof.
  intros Hn Hk. unfold blocks, segments. rewrite segments_literal by done.
  rewrite flat_map_app, blocks_literal. simpl.
  assert (forall d block, closing r d = None ->
            segments_from r (S d) block = []) as ->; [|done..].
  clear. induction r as [|c r IH]; intros d block; [done|].
  cbn [closing segments_from].
  destruct (c =? close_brace)%N.
  - destruct d as [|d]; [done|].
    destruct (closing r d) eqn:E; [done|]. intros _. by apply IH.
  - destruct (c =? open_brace)%N.
    + destruct (closing r (S d)) eqn:E; [done|]. intros _. by apply IH.
    + destruct (closing r d) eqn:E; [done|]. intros _. by apply IH.
Qed.

End Segments.

(** ** Unbalanced messages *)

Section Unbalanced.

Context (typeHandlers : gmap jsstring typeHandler).
Implicit Types (message t r : jsstring) (values : gmap jsstring value).

Lemma unmatched_nonempty message : unmatched message -> message <> [].
Proof. rewrite unmatched_lookup. by intros (n & Hl & _) ->. Qed.

Lemma unmatched_has_brace message : unmatched message -> open_brace ∈ message.
Proof.
  rewrite unmatched_lookup. intros (n & Hl & _).
  by apply list_elem_of_lookup_2 in Hl.
Qed.

Lemma handler_for_Some type handler :
  handler_for typeHandlers type = Some handler ->
  exists t, type = Some t /\ read_handler typeHandlers t = Some handler.
Proof.
  destruct type as [t|]; [|done]. simpl.
  destruct (truthy t); [|done]. eauto.
Qed.

(** Whatever the handlers do, no node sequence comes back. *)
Lemma process_unmatched_never_returns fuel message values locale nodes :
  unmatched message ->
  process typeHandlers fuel message values locale <> Returned nodes.
Proof.
  revert message nodes. induction fuel as [|fuel IH]; intros message nodes Hu;
    [done|].
  destruct (message_cases message)
    as [->|[[Hm Hn]|[(t & r & -> & Hn & Hk)|(t & r & k & -> & Hn & Hk)]]].
  - by apply unmatched_nonempty in Hu.
  - by apply unmatched_has_brace in Hu.
  - by rewrite process_unclosed.
  - rewrite process_block by (by eapply shape_has_block). cbv zeta.
    destruct (match handler_for _ _ with Some _ => _ | None => _ end)
      as [v| |]; [|done..].
    cbn [bind]. intros Hemit.
    apply emit_returns in Hemit as (rest & Hrest & _).
    destruct (block_pieces t r k Hn Hk) as (_ & _ & _ & _ & Htail).
    rewrite Htail in Hrest.
    pose proof (unmatched_tail t r k Hn Hk Hu) as Hu'.
    pose proof (unmatched_nonempty _ Hu') as Hne.
    apply truthy_true in Hne. rewrite Hne in Hrest.
    by apply IH in Hrest.
Qed.

(** One call of [process] when the handler call for its first block
    returns: the handler's value goes to [emit]. *)
Lemma process_block_returning fuel t r k values locale :
  open_brace ∉ t -> closing r 0 = Some k ->
  handler_calls_return typeHandlers (S fuel) (blocks (t ++ open_brace :: r))
    values locale = true ->
  handler_calls_return typeHandlers fuel (blocks (drop (S k) r))
    values locale = true /\
  exists v,
    process typeHandlers (S fuel) (t ++ open_brace :: r) values locale =
    emit typeHandlers fuel (t ++ open_brace :: r) values locale v.
Proof.
  intros Hn Hk. rewrite (blocks_block t r k Hn Hk).
  cbn [handler_calls_return]. cbv zeta.
  intros [Hcall Hrest]%andb_true_iff. split; [done|].
  destruct (block_pieces t r k Hn Hk) as (_ & _ & Hblock & _ & _).
  rewrite process_block by (by eapply shape_has_block). cbv zeta.
  rewrite Hblock.
  destruct (handler_for _ _) as [handler|]; [|by eexists].
  destruct (handler _ _ _ _ _) as [v| |]; [|done..]. by exists v.
Qed.



End Unbalanced.

(** ** Processing substitutes the placeholders *)

Section Substitution.

Context (typeHandlers : gmap jsstring typeHandler).
Implicit Types (message t r w : jsstring) (values : gmap jsstring value).

Lemma balanced_prefix t r :
  open_brace ∉ t -> balanced_from (t ++ r) 0 = true ->
  balanced_from r 0 = true.
Proof.
  induction t as [|c t IH]; intros Hn; [done|].
  apply not_elem_of_cons in Hn as [Hc Hn]. simpl.
  destruct (N.eqb_spec c open_brace); [done|].
  destruct (c =? close_brace)%N; [done|]. by apply IH.
Qed.

Lemma balanced_closing r d :
  balanced_from r (S d) = true ->
  exists k, closing r d = Some k /\ balanced_from (drop (S k) r) 0 = true.
Proof.
  revert d. induction r as [|c r IH]; intros d; [done|].
  cbn [closing balanced_from].
  destruct (N.eqb_spec c open_brace) as [->|_].
  - intros Hb. destruct (IH _ Hb) as (k & -> & Hk). by exists (S k).
  - destruct (c =? close_brace)%N.
    + destruct d as [|d]; [intros Hb; by exists 0%nat|].
      intros Hb. destruct (IH _ Hb) as (k & -> & Hk). by exists (S k).
    + intros Hb. destruct (IH _ Hb) as (k & -> & Hk). by exists (S k).
Qed.

Lemma segment_text_literal values t :
  flat_map (segment_text values) (map Literal t) = t.
Proof. induction t as [|c t IH]; simpl; congruence. Qed.

Lemma extractValues_head t :
  extractValues (if truthy t then [decorateMessageString t] else []) =
  Returned (if truthy t then [VString t] else []).
Proof. by destruct t. Qed.

Lemma array_join_head t :
  array_join (if truthy t then [VString t] else []) [] = t.
Proof. destruct t; [done|]. unfold array_join. simpl. done. Qed.

Lemma substituted_no_block values message :
  open_brace ∉ message -> substituted values message = message.
Proof.
  intros Hn. unfold substituted, segments.
  rewrite <- (app_nil_r message) at 1.
  rewrite segments_literal by done. simpl. rewrite app_nil_r.
  apply segment_text_literal.
Qed.

Lemma before_comma_found t r :
  comma ∉ t -> before_comma (t ++ comma :: r) = t.
Proof.
  induction t as [|c t IH]; intros Hn; simpl.
  - done.
  - apply not_elem_of_cons in Hn as [Hc Hn].
    destruct (N.eqb_spec c comma); [done|]. by rewrite IH.
Qed.

Lemma before_comma_absent t : comma ∉ t -> before_comma t = t.
Proof.
  induction t as [|c t IH]; intros Hn; [done|]. simpl.
  apply not_elem_of_cons in Hn as [Hc Hn].
  destruct (N.eqb_spec c comma); [done|]. by rewrite IH.
Qed.

Lemma interior_of_block w :
  interior_of (open_brace :: w ++ [close_brace]) = w.
Proof.
  unfold interior_of. simpl. rewrite drop_0, length_app. simpl.
  replace (length w + 1 - 1)%nat with (length w) by lia.
  apply take_app_length.
Qed.

Lemma closed_block_shape r k :
  closing r 0 = Some k ->
  open_brace :: take (S k) r = open_brace :: take k r ++ [close_brace].
Proof.
  intros Hk. apply closing_lookup in Hk. by rewrite (take_S_r _ _ _ Hk).
Qed.

(** For a block with a plain key, the first part that the splitter gives is
    the key of the specification. *)
Lemma first_part_plain w :
  key_is_plain (open_brace :: w ++ [close_brace]) = true ->
  splitFormattedArgument (open_brace :: w ++ [close_brace]) !! 0%nat =
  Some (key_of (open_brace :: w ++ [close_brace])).
Proof.
  unfold key_is_plain, key_of, splitFormattedArgument.
  rewrite interior_of_block, slice_block. cbv zeta.
  intros [Hw Hplain]%andb_true_iff. change (str ",") with [comma].
  destruct (indexOf_single w comma) as [[Hn Hi]|(t & r & -> & Hn & Hi)].
  - apply orb_true_iff in Hplain as [Hin|Htrim].
    { by apply bool_decide_eq_true in Hin. }
    apply same_true in Htrim. apply truthy_true in Hw.
    rewrite split_without_separator by done.
    by rewrite before_comma_absent, Htrim.
  - rewrite before_comma_found by done.
    rewrite split_equation, Hw. cbn [negb]. cbv zeta. rewrite Hi.
    pose proof (len_nonneg t).
    destruct (Z.eqb_spec 3 1); [lia|].
    destruct (Z.eqb_spec (len t) (-1)); [lia|].
    unfold split. rewrite split_bounded_accumulator. cbn [app lookup].
    rewrite substring_prefix
      by (rewrite len_app; unfold len; simpl length; lia).
    replace (Z.to_nat (len t)) with (length t) by (unfold len; lia).
    by rewrite take_app_length.
Qed.

Lemma Object_prototype_get_shape name :
  Object_prototype_get name = VUndefined \/
  is_object (Object_prototype_get name) = true.
Proof.
  unfold Object_prototype_get. destruct (same name (str "__proto__"));
    [by right|].
  unfold Object_prototype, Object_prototype_methods.
  cbn [map lookup_property].
  repeat (destruct (same _ name); [by right|]). by left.
Qed.

(** Where [values[key]] reads a string, [null] or [undefined], the body of
    [process] is the resolved value of the specification, a string. *)
Lemma body_resolved values block :
  reads_string values block = true ->
  body_of values (Some (key_of block)) = resolved values block /\
  exists s, resolved values block = VString s.
Proof.
  unfold reads_string, body_of, resolved, property_key, read_property.
  destruct (values !! key_of block) as [v|].
  - destruct v; try done; eauto.
  - destruct (Object_prototype_get_shape (key_of block)) as [->|Hobj];
      [eauto|].
    destruct (Object_prototype_get (key_of block)); try done; eauto.
Qed.

(** C1. For a message with balanced braces whose blocks have a plain key
    (alone in the block with no space around it, or followed by a comma),
    where [values[key]] reads a string, [null] or [undefined] for every key
    and the handler that the dispatch finds for a block, registered or
    inherited from [Object.prototype], returns the value it is given:
    [process] returns a node sequence, and the leaf values that
    [extractValues] collects from it, joined in order, are the message with
    every placeholder block replaced by its resolved value; this is the
    string that [format] returns. *)
Theorem process_concatenation (fuel : nat) message values locale :
  balanced message = true ->
  forallb key_is_plain (blocks message) = true ->
  forallb (reads_string values) (blocks message) = true ->
  Forall (dispatch_transparent typeHandlers values locale) (blocks message) ->
  (length message < fuel)%nat ->
  exists nodes leaves,
    process typeHandlers fuel message values locale = Returned nodes /\
    extractValues nodes = Returned leaves /\
    array_join leaves [] = substituted values message /\
    format typeHandlers fuel message values locale =
    Returned (substituted values message).
Proof.
  intros Hbal Hplain Hstr Htr Hlen.
  enough (exists nodes leaves,
    process typeHandlers fuel message values locale = Returned nodes /\
    extractValues nodes = Returned leaves /\
    array_join leaves [] = substituted values message)
    as (nodes & leaves & Hp & He & Hj).
  { exists nodes, leaves. repeat split; try done.
    unfold format. rewrite Hp. cbn [bind]. rewrite He. cbn [bind].
    by rewrite Hj. }
  revert message Hbal Hplain Hstr Htr Hlen.
  induction fuel as [|fuel IH]; intros message Hbal Hplain Hstr Htr Hlen;
    [lia|].
  destruct (message_cases message)
    as [->|[[Hm Hn]|[(t & r & -> & Hn & Hk)|(t & r & k & -> & Hn & Hk)]]].
  - by exists [], [].
  - exists [decorateMessageString message], [VString message].
    rewrite process_no_block, substituted_no_block by done.
    split; [done|]. split; [done|]. unfold array_join. simpl. done.
  - apply balanced_prefix in Hbal; [|done]. simpl in Hbal.
    apply balanced_closing in Hbal as (k & Hk' & _). congruence.
  - pose proof Hbal as Hbal'.
    apply balanced_prefix in Hbal'; [|done]. simpl in Hbal'.
    apply balanced_closing in Hbal' as (k' & Hk' & Hbal').
    assert (k' = k) as -> by congruence.
    destruct (block_pieces t r k Hn Hk) as (_ & _ & Hblock & Hhead & Htail).
    rewrite (blocks_block t r k Hn Hk) in Hplain, Hstr, Htr.
    cbn [forallb] in Hplain, Hstr.
    apply andb_true_iff in Hplain as [Hkey Hplain].
    apply andb_true_iff in Hstr as [Hs Hstr].
    apply Forall_cons in Htr as [Hdispatch Htr].
    unfold substituted. rewrite (segments_block t r k Hn Hk).
    rewrite flat_map_app, segment_text_literal.
    cbn [flat_map segment_text].
    fold (substituted values (drop (S k) r)).
    set (block := open_brace :: take (S k) r) in *.
    assert (Hpart : splitFormattedArgument block !! 0%nat =
                    Some (key_of block)).
    { unfold block in *. rewrite (closed_block_shape r k Hk) in *.
      by apply first_part_plain. }
    destruct (body_resolved values block Hs) as (Hbody & sv & Hsv).
    rewrite Hsv. cbn [toString].
    destruct (IH (drop (S k) r)) as (rest & leaves & Hrest & Hleaves & Hjoin);
      [done..| |].
    { rewrite length_drop. rewrite length_app in Hlen. simpl in Hlen. lia. }
    rewrite process_block by (by eapply shape_has_block). cbv zeta.
    rewrite Hblock, Hpart, Hbody, Hsv.
    assert (Hv : match handler_for typeHandlers
                         (splitFormattedArgument block !! 1%nat) with
                 | Some handler =>
                     handler (VString sv)
                       (splitFormattedArgument block !! 2%nat)
                       values locale (process typeHandlers fuel)
                 | None => Returned (VString sv)
                 end = Returned (VString sv)).
    { destruct (handler_for _ _) as [handler|] eqn:Hh; [|done].
      by apply Hdispatch. }
    rewrite Hv. cbn [bind]. unfold emit. cbv zeta.
    rewrite Hhead, Htail, Hblock.
    set (node := decorateValue _ _ (VString sv)).
    assert (Hnode : extractValues [node] = Returned [VString sv]) by done.
    destruct (truthy (drop (S k) r)) eqn:Htruthy.
    + rewrite Hrest. cbn [bind].
      exists (((if truthy t then [decorateMessageString t] else []) ++ [node])
              ++ rest),
             (((if truthy t then [VString t] else []) ++ [VString sv])
              ++ leaves).
      split; [done|]. split.
      * rewrite !extractValues_app, extractValues_head, Hnode, Hleaves. done.
      * rewrite !array_join_app, array_join_head, Hjoin.
        by rewrite <- app_assoc.
    + destruct (drop (S k) r) eqn:Hd; [|done].
      exists ((if truthy t then [decorateMessageString t] else []) ++ [node]),
             ((if truthy t then [VString t] else []) ++ [VString sv]).
      split; [done|]. split.
      * rewrite !extractValues_app, extractValues_head, Hnode. done.
      * rewrite !array_join_app, array_join_head. by rewrite app_nil_r.
Qed.

End Substitution.

(** ** The properties at concrete inputs *)

Lemma process_concatenation_witness :
  exists nodes leaves,
    process echo_handlers 20 (str "Hello {name, text}!")
      {[ str "name" := VString (str "World") ]} None = Returned nodes /\
    extractValues nodes = Returned leaves /\
    array_join leaves [] =
      substituted {[ str "name" := VString (str "World") ]}
        (str "Hello {name, text}!") /\
    format echo_handlers 20 (str "Hello {name, text}!")
      {[ str "name" := VString (str "World") ]} None =
    Returned (substituted {[ str "name" := VString (str "World") ]}
                (str "Hello {name, text}!")).
Proof.
  apply (process_concatenation echo_handlers 20 (str "Hello {name, text}!")
           {[ str "name" := VString (str "World") ]} None).
  - vm_compute. reflexivity.
  - vm_compute. reflexivity.
  - vm_compute. reflexivity.
  - constructor; [|constructor].
    intros handler Hh body format recurse.
    vm_compute in Hh. injection Hh as <-. reflexivity.
  - simpl. lia.
Defined.

(** With no handler registered, a type that names a member of
    [Object.prototype] has that member called: the block "{k, toString}"
    renders as the tag of [undefined] and not as the value of [k]. *)
Lemma inherited_toString_transforms :
  balanced (str "{k, toString}") = true /\
  (∅ : gmap jsstring typeHandler) !! str "toString" = None /\
  substituted {[ str "k" := VString (str "v") ]} (str "{k, toString}") =
    str "v" /\
  format ∅ 3 (str "{k, toString}") {[ str "k" := VString (str "v") ]} None =
    Returned (str "[object Undefined]") /\
  ~ (exists nodes leaves,
       process ∅ 3 (str "{k, toString}") {[ str "k" := VString (str "v") ]}
         None = Returned nodes /\
       extractValues nodes = Returned leaves /\
       array_join leaves [] =
         substituted {[ str "k" := VString (str "v") ]} (str "{k, toString}")).
Proof.
  split; [reflexivity|]. split; [reflexivity|].
  split; [vm_compute; reflexivity|]. split; [vm_compute; reflexivity|].
  intros (nodes & leaves & Hp & He & Hj).
  vm_compute in Hp. injection Hp as <-.
  vm_compute in He. injection He as <-.
  vm_compute in Hj. discriminate Hj.
Qed.

(** A lone key with spaces around it is looked up with the spaces: the
    block "{ name }" renders as the empty string where the values object
    holds "World" for "name". *)
Lemma spaced_key_is_not_trimmed :
  substituted {[ str "name" := VString (str "World") ]}
    (str "Hello { name }!") = str "Hello World!" /\
  format ∅ 3 (str "Hello { name }!") {[ str "name" := VString (str "World") ]}
    None = Returned (str "Hello !").
Proof. split; vm_compute; reflexivity. Qed.




Lemma has_block_greeting : has_block (str "{greeting}, {name}").
Proof. split; vm_compute; discriminate. Defined.

Lemma missing_value_is_empty_string_witness :
  body_of ∅ (splitFormattedArgument (block_of (str "{greeting}, {name}"))
               !! 0%nat) = VString [] /\
  process echo_handlers 3 (str "{greeting}, {name}") ∅ None =
  (do v <- match handler_for echo_handlers
                   (splitFormattedArgument
                      (block_of (str "{greeting}, {name}")) !! 1%nat) with
           | Some handler =>
               handler (VString [])
                 (splitFormattedArgument
                    (block_of (str "{greeting}, {name}")) !! 2%nat)
                 ∅ None (process echo_handlers 2)
           | None => Returned (VString [])
           end ;
   emit echo_handlers 2 (str "{greeting}, {name}") ∅ None v) /\
  (handler_for echo_handlers
     (splitFormattedArgument (block_of (str "{greeting}, {name}")) !! 1%nat)
   = None ->
   forall rest,
     (if truthy (tail_of (str "{greeting}, {name}"))
      then process echo_handlers 2 (tail_of (str "{greeting}, {name}")) ∅ None
      else Returned []) = Returned rest ->
     process echo_handlers 3 (str "{greeting}, {name}") ∅ None =
     Returned
       ((if truthy (head_of (str "{greeting}, {name}"))
         then [decorateMessageString (head_of (str "{greeting}, {name}"))]
         else []) ++
        decorateValue
          (splitFormattedArgument (block_of (str "{greeting}, {name}"))
             !! 0%nat)
          (splitFormattedArgument (block_of (str "{greeting}, {name}"))
             !! 1%nat)
          (VString []) :: rest)).
Proof.
  apply (proj1 (missing_value_is_empty_string echo_handlers) 2%nat
           (str "{greeting}, {name}") ∅ None).
  - apply has_block_greeting.
  - left. split; vm_compute; reflexivity.
Defined.

(** The key "toString" is absent from the empty values object, and the block
    resolves to the function that the object inherits: [format] gives its
    source text, not the empty string. *)
Lemma inherited_key_is_not_missing :
  (∅ : gmap jsstring value) !! str "toString" = None /\
  body_of ∅ (Some (str "toString")) =
    VFunction (native_source (str "toString")) /\
  format ∅ 2 (str "{toString}") ∅ None =
    Returned (native_source (str "toString")) /\
  format ∅ 2 (str "{toString}") ∅ None <> Returned [].
Proof.
  split; [reflexivity|]. split; [vm_compute; reflexivity|].
  assert (Hf : format ∅ 2 (str "{toString}") ∅ None =
               Returned (native_source (str "toString")))
    by (vm_compute; reflexivity).
  split; [done|]. rewrite Hf. vm_compute. discriminate.
Qed.

Lemma has_block_count : has_block (str "You have {count, text, # items}").
Proof. split; vm_compute; discriminate. Defined.

Lemma placeholder_dispatch_witness :
  let message := str "You have {count, text, # items}" in
  let values : gmap jsstring value := {[ str "count" := VPrimitive (str "1") ]} in
  let parts := splitFormattedArgument (block_of message) in
  let key := parts !! 0%nat in
  let type := parts !! 1%nat in
  let format := parts !! 2%nat in
  let body := body_of values key in
  ((type = None \/ type = Some [] \/
    (exists t, type = Some t /\ echo_handlers !! t = None /\
               Object_prototype_call t = None)) ->
   process echo_handlers 2 message values None =
   emit echo_handlers 1 message values None body) /\
  (forall t handler,
     type = Some t -> t <> [] -> echo_handlers !! t = Some handler ->
     process echo_handlers 2 message values None =
     do v <- handler body format values None (process echo_handlers 1) ;
     emit echo_handlers 1 message values None v) /\
  (forall t member,
     type = Some t -> t <> [] -> echo_handlers !! t = None ->
     Object_prototype_call t = Some member ->
     process echo_handlers 2 message values None =
     do v <- member body format values None (process echo_handlers 1) ;
     emit echo_handlers 1 message values None v) /\
  (forall v nodes,
     emit echo_handlers 1 message values None v = Returned nodes ->
     decorateValue key type v ∈ nodes /\
     get (decorateValue key type v) (str "value") = Returned v).
Proof.
  apply (placeholder_dispatch echo_handlers 1
           (str "You have {count, text, # items}")
           {[ str "count" := VPrimitive (str "1") ]} None).
  apply has_block_count.
Defined.

(** No handler is registered under "valueOf", and the block "{k, valueOf}"
    does not get the raw value: [Object.prototype.valueOf] is called and
    throws. *)
Lemma unregistered_type_calls_inherited_member :
  (∅ : gmap jsstring typeHandler) !! str "valueOf" = None /\
  splitFormattedArgument (block_of (str "{k, valueOf}")) !! 1%nat =
    Some (str "valueOf") /\
  process ∅ 2 (str "{k, valueOf}") {[ str "k" := VString (str "v") ]} None =
    Thrown (TypeError (str "Cannot convert undefined or null to object")) /\
  process ∅ 2 (str "{k, valueOf}") {[ str "k" := VString (str "v") ]} None <>
    emit ∅ 1 (str "{k, valueOf}") {[ str "k" := VString (str "v") ]} None
      (VString (str "v")).
Proof.
  split; [reflexivity|]. split; [vm_compute; reflexivity|].
  split; [vm_compute; reflexivity|]. vm_compute. discriminate.
Qed.

Lemma no_brace_in_hello : open_brace ∉ str "Hello, world".
Proof.
  intros Hin. apply list_elem_of_In in Hin. simpl in Hin.
  repeat (destruct Hin as [Hin|Hin]; [discriminate Hin|]). exact Hin.
Defined.

Lemma format_without_placeholders_witness :
  format echo_handlers 1 (str "Hello, world") ∅ None =
  Returned (str "Hello, world").
Proof.
  apply (format_without_placeholders echo_handlers 0 (str "Hello, world") None).
  apply no_brace_in_hello.
Defined.

Lemma process_node_sources_witness :
  Forall node_source_regular
         [decorateMessageString (str "Hello ");
          decorateValue (Some (str "name")) (Some (str "text"))
            (VString (str "World"));
          decorateMessageString (str "!")].
Proof.
  apply (process_node_sources echo_handlers 3 (str "Hello {name, text}!")
           {[ str "name" := VString (str "World") ]} None).
  vm_compute. reflexivity.
Defined.

(** ** More on the argument splitter *)

Section Trim.

Implicit Types (s t r : jsstring) (c : N).

Lemma trimStart_length_fixed s :
  length (trimStart s) = length s -> trimStart s = s.
Proof.
  destruct s as [|c s]; [done|]. simpl.
  destruct (is_whitespace c); [|done].
  pose proof (length_trimStart s). lia.
Qed.

Lemma trimStart_clean c s :
  is_whitespace c = false -> trimStart (c :: s) = c :: s.
Proof. intros Hc. simpl. by rewrite Hc. Qed.

Lemma trimStart_fixed_shape s :
  trimStart s = s ->
  s = [] \/ exists c r, s = c :: r /\ is_whitespace c = false.
Proof.
  destruct s as [|c s]; [by left|]. simpl.
  destruct (is_whitespace c) eqn:Hc; [|right; eauto].
  intros E. pose proof (length_trimStart s) as Hl. rewrite E in Hl.
  simpl in Hl. lia.
Qed.

Lemma trimStart_idempotent s : trimStart (trimStart s) = trimStart s.
Proof.
  induction s as [|c s IH]; [done|]. simpl.
  destruct (is_whitespace c) eqn:Hc; [done|]. by apply trimStart_clean.
Qed.

Lemma trimStart_snoc_clean s c :
  is_whitespace c = false -> trimStart (s ++ [c]) = trimStart s ++ [c].
Proof.
  intros Hc. induction s as [|d s IH]; simpl.
  - by rewrite Hc.
  - by destruct (is_whitespace d).
Qed.

Lemma trimEnd_fixed s : trimEnd s = s <-> trimStart (rev s) = rev s.
Proof.
  unfold trimEnd. split; intros E.
  - rewrite <- E at 2. by rewrite rev_involutive.
  - by rewrite E, rev_involutive.
Qed.

Lemma trimEnd_idempotent s : trimEnd (trimEnd s) = trimEnd s.
Proof.
  unfold trimEnd. by rewrite rev_involutive, trimStart_idempotent.
Qed.

Lemma trimEnd_clean_head c s :
  is_whitespace c = false -> trimEnd (c :: s) = c :: trimEnd s.
Proof.
  intros Hc. unfold trimEnd. simpl.
  rewrite trimStart_snoc_clean by done. rewrite rev_app_distr. done.
Qed.

Lemma trimStart_trimEnd s :
  trimStart s = s -> trimStart (trimEnd s) = trimEnd s.
Proof.
  intros E. destruct (trimStart_fixed_shape s E) as [->|(c & r & -> & Hc)];
    [done|].
  rewrite trimEnd_clean_head by done. by apply trimStart_clean.
Qed.

(** [trim] changes nothing in a string that it has already trimmed. *)
Lemma trim_idempotent s : trim (trim s) = trim s.
Proof.
  unfold trim.
  rewrite (trimStart_trimEnd (trimStart s)) by apply trimStart_idempotent.
  apply trimEnd_idempotent.
Qed.

Lemma trim_fixed s : trim s = s <-> trimStart s = s /\ trimEnd s = s.
Proof.
  split.
  - intros E.
    assert (Hs : trimStart s = s).
    { apply trimStart_length_fixed.
      pose proof (length_trimStart s) as H1.
      pose proof (length_trimStart (rev (trimStart s))) as H2.
      assert (length (trim s) = length s) as H3 by (by rewrite E).
      unfold trim, trimEnd in H3. rewrite length_rev in H3.
      rewrite length_rev in H2. lia. }
    split; [done|]. unfold trim in E. by rewrite Hs in E.
  - intros [Hs He]. unfold trim. by rewrite Hs.
Qed.

(** A string that begins and ends with trimmed, non-empty pieces is
    trimmed. *)
Lemma trim_between s t r :
  trim s = s -> s <> [] -> trim r = r -> r <> [] ->
  trim (s ++ t ++ r) = s ++ t ++ r.
Proof.
  intros Hs Hsne Hr Hrne.
  apply trim_fixed in Hs as [Hs _]. apply trim_fixed in Hr as [_ Hr].
  apply trim_fixed. split.
  - destruct (trimStart_fixed_shape s Hs) as [->|(c & s' & -> & Hc)];
      [done|].
    simpl. by rewrite Hc.
  - apply trimEnd_fixed. apply trimEnd_fixed in Hr.
    rewrite !rev_app_distr, <- app_assoc.
    destruct (trimStart_fixed_shape (rev r) Hr) as [E|(c & r' & E & Hc)].
    + apply (f_equal (@rev N)) in E. rewrite rev_involutive in E. done.
    + rewrite E. simpl. by rewrite Hc.
Qed.

End Trim.

Section SplitterMore.

Implicit Types (s t r separator : jsstring) (c : N).

(** X2. The accumulator only receives: the parts of a call are appended to
    the accumulator it was given, and do not depend on it. *)
Theorem split_accumulator s separator limit accumulator :
  split s separator limit accumulator =
  accumulator ++ split s separator limit [].
Proof. apply split_bounded_accumulator. Qed.

Lemma split_bounded_length n s separator limit accumulator :
  1 <= limit ->
  Z.of_nat (length (split_bounded n s separator limit accumulator)) <=
  Z.of_nat (length accumulator) + limit.
Proof.
  revert s limit accumulator.
  induction n as [|n IH]; intros s limit accumulator Hl; simpl; [lia|].
  destruct (truthy s); simpl; [|lia].
  destruct (Z.eqb_spec limit 1) as [->|Hne].
  { rewrite length_app. simpl. lia. }
  destruct (indexOf s separator =? -1).
  { rewrite length_app. simpl. lia. }
  etransitivity; [apply IH; lia|]. rewrite length_app. simpl. lia.
Qed.

(** X1. With a limit of at least 1, [split] adds at most [limit] parts, so
    [splitFormattedArgument] yields at most three: key, type and format. *)
Theorem split_at_most_limit :
  (forall s separator limit accumulator,
     1 <= limit ->
     Z.of_nat (length (split s separator limit accumulator)) <=
     Z.of_nat (length accumulator) + limit) /\
  (forall block, (length (splitFormattedArgument block) <= 3)%nat).
Proof.
  split.
  - intros s separator limit accumulator Hl.
    by apply split_bounded_length.
  - intros block. unfold splitFormattedArgument, split.
    pose proof (split_bounded_length (length (slice block 1 (-1)))
                  (slice block 1 (-1)) (str ",") 3 [] ltac:(lia)) as H.
    simpl in H. lia.
Qed.

Lemma split_trimmed_input s separator limit accumulator :
  trim s = s -> Forall (fun p => trim p = p) accumulator ->
  Forall (fun p => trim p = p) (split s separator limit accumulator).
Proof.
  unfold split. generalize (length s) as n.
  intros n. revert s limit accumulator.
  induction n as [|n IH]; intros s limit accumulator Hs Hacc; simpl; [done|].
  destruct (truthy s); simpl; [|done].
  assert (Hpush : Forall (fun p => trim p = p) (accumulator ++ [s])).
  { apply Forall_app. split; [done|]. by constructor. }
  destruct (limit =? 1); [done|].
  destruct (indexOf s separator =? -1); [done|].
  apply IH; [apply trim_idempotent|].
  apply Forall_app. split; [done|].
  constructor; [apply trim_idempotent | constructor].
Qed.

(** X3. Once the separator is found, every part is trimmed: the head and the
    string handed on go through [trim], and what is pushed later is either of
    them. *)
Theorem split_parts_trimmed s separator limit :
  limit <> 1 -> indexOf s separator <> -1 ->
  Forall (fun p => trim p = p) (split s separator limit []).
Proof.
  intros Hl Hi. rewrite split_equation.
  destruct (truthy s); simpl; [|done].
  destruct (Z.eqb_spec limit 1); [done|].
  destruct (Z.eqb_spec (indexOf s separator) (-1)); [done|].
  apply split_trimmed_input; [apply trim_idempotent|].
  constructor; [apply trim_idempotent | constructor].
Qed.

Lemma split_parts_trimmed_witness :
  Forall (fun p => trim p = p) (split (str " a , b ") (str ",") 3 []).
Proof.
  apply (split_parts_trimmed (str " a , b ") (str ",") 3).
  - lia.
  - vm_compute. discriminate.
Defined.

Lemma split_at_most_limit_witness :
  Z.of_nat (length (split (str "a, b, c, d") (str ",") 2 [])) <=
  Z.of_nat (length (@nil jsstring)) + 2.
Proof.
  apply (proj1 split_at_most_limit (str "a, b, c, d") (str ",") 2 []). lia.
Defined.

End SplitterMore.

Section SplitterCanonical.

Implicit Types (key type format s r : jsstring) (c : N).

(** One step of [split] on the comma: the head goes through [trim], and the
    scan resumes after the code unit that follows the comma. *)
Lemma split_comma_step key c r limit accumulator :
  comma ∉ key -> limit <> 1 ->
  split (key ++ comma :: c :: r) [comma] limit accumulator =
  split (trim r) [comma] (limit - 1) (accumulator ++ [trim key]).
Proof.
  intros Hn Hl. rewrite split_equation.
  assert (truthy (key ++ comma :: c :: r) = true) as -> by (by destruct key).
  cbn [negb]. destruct (Z.eqb_spec limit 1); [done|].
  rewrite indexOf_single_found by done. cbv zeta.
  pose proof (len_nonneg key).
  destruct (Z.eqb_spec (len key) (-1)); [lia|].
  rewrite substring_prefix
    by (rewrite len_app; unfold len; simpl length; lia).
  replace (Z.to_nat (len key)) with (length key) by (unfold len; lia).
  rewrite take_app_length.
  rewrite substring_from_drop by (unfold len; simpl; lia).
  replace (Z.to_nat (len key + len [comma] + 1)) with (length key + 2)%nat
    by (unfold len; simpl; lia).
  rewrite <- drop_drop, drop_app_length. done.
Qed.

Lemma canonical_parts key type format :
  comma ∉ key -> comma ∉ type ->
  trim type = type -> type <> [] ->
  trim format = format -> format <> [] ->
  splitFormattedArgument
    (str "{" ++ key ++ str ", " ++ type ++ str ", " ++ format ++ str "}") =
    [trim key; type; format] /\
  splitFormattedArgument (str "{" ++ key ++ str ", " ++ type ++ str "}") =
    [trim key; type].
Proof.
  intros Hk Ht Htrim Htne Hftrim Hfne.
  unfold splitFormattedArgument.
  change (str "{") with [open_brace]. change (str "}") with [close_brace].
  change (str ",") with [comma]. change (str ", ") with [comma; 32%N].
  split.
  - replace ([open_brace] ++ key ++ [comma; 32%N] ++ type ++
             [comma; 32%N] ++ format ++ [close_brace])
      with (open_brace ::
            (key ++ comma :: 32%N :: type ++ comma :: 32%N :: format) ++
            [close_brace])
      by (simpl; rewrite <- !app_assoc; simpl; by rewrite <- !app_assoc).
    rewrite slice_block, split_comma_step by (done || lia).
    change (type ++ comma :: 32%N :: format)
      with (type ++ [comma; 32%N] ++ format) at 1.
    rewrite trim_between by done. cbn [app].
    rewrite split_comma_step by (done || lia).
    rewrite Htrim, Hftrim, split_equation.
    apply truthy_true in Hfne. by rewrite Hfne.
  - replace ([open_brace] ++ key ++ [comma; 32%N] ++ type ++ [close_brace])
      with (open_brace :: (key ++ comma :: 32%N :: type) ++ [close_brace])
      by (simpl; rewrite <- !app_assoc; done).
    rewrite slice_block, split_comma_step by (done || lia).
    rewrite Htrim, split_without_separator; [done..|].
    by apply indexOf_single_absent.
Qed.

(** X4. The block written the canonical way, with a comma and a space between
    the parts, splits into its parts: the key trimmed, the type, and the
    format whole, commas and braces included. *)
Theorem splitFormattedArgument_canonical key type format :
  comma ∉ key -> comma ∉ type ->
  trim type = type -> type <> [] ->
  trim format = format -> format <> [] ->
  splitFormattedArgument
    (str "{" ++ key ++ str ", " ++ type ++ str ", " ++ format ++ str "}") =
    [trim key; type; format] /\
  splitFormattedArgument (str "{" ++ key ++ str ", " ++ type ++ str "}") =
    [trim key; type].
Proof. apply canonical_parts. Qed.

Lemma splitFormattedArgument_canonical_witness :
  splitFormattedArgument
    (str "{" ++ str "count" ++ str ", " ++ str "plural" ++ str ", " ++
     str "one {1 item}, other {# items}" ++ str "}") =
    [trim (str "count"); str "plural"; str "one {1 item}, other {# items}"] /\
  splitFormattedArgument
    (str "{" ++ str "count" ++ str ", " ++ str "plural" ++ str "}") =
    [trim (str "count"); str "plural"].
Proof.
  apply (splitFormattedArgument_canonical (str "count") (str "plural")
           (str "one {1 item}, other {# items}")).
  - intros Hin. apply list_elem_of_In in Hin. simpl in Hin.
    repeat (destruct Hin as [Hin|Hin]; [discriminate Hin|]). exact Hin.
  - intros Hin. apply list_elem_of_In in Hin. simpl in Hin.
    repeat (destruct Hin as [Hin|Hin]; [discriminate Hin|]). exact Hin.
  - vm_compute. reflexivity.
  - discriminate.
  - vm_compute. reflexivity.
  - discriminate.
Defined.

End SplitterCanonical.

(** ** More on the bracket matcher *)

Section BracketMatcherMore.

Implicit Types (s p r x : jsstring) (c : N).

Lemma findClosingBracket_closing_from s i :
  -1 <= i ->
  findClosingBracket s i =
  match closing (drop (Z.to_nat (i + 1)) s) 0 with
  | Some k => i + 1 + Z.of_nat k
  | None => -1
  end.
Proof.
  intros Hi. unfold findClosingBracket.
  change 0 with (Z.of_nat 0) at 1.
  apply loop_closing; [lia|].
  rewrite length_drop. unfold len. lia.
Qed.

Lemma loop_negative k steps s depth :
  findClosingBracket_loop (k + steps) s (- Z.of_nat k) depth =
  findClosingBracket_loop steps s 0 depth.
Proof.
  induction k as [|k IH]; [done|].
  cbn [Nat.add findClosingBracket_loop].
  pose proof (len_nonneg s).
  destruct (Z.ltb_spec (- Z.of_nat (S k)) (len s)); [|lia].
  assert (charAt s (- Z.of_nat (S k)) = []) as ->.
  { unfold charAt. destruct (Z.ltb_spec (- Z.of_nat (S k)) 0); [done|lia]. }
  rewrite str_close_brace, str_open_brace, !same_nil_single.
  replace (- Z.of_nat (S k) + 1) with (- Z.of_nat k) by lia. done.
Qed.

Lemma findClosingBracket_negative s i :
  i < -1 -> findClosingBracket s i = findClosingBracket s (-1).
Proof.
  intros Hi. unfold findClosingBracket. pose proof (len_nonneg s).
  replace (Z.to_nat (len s - (i + 1)))
    with (Z.to_nat (- (i + 1)) + Z.to_nat (len s - (-1 + 1)))%nat by lia.
  replace (i + 1) with (- Z.of_nat (Z.to_nat (- (i + 1)))) at 2 by lia.
  by rewrite loop_negative.
Qed.

(** X5. A negative [fromIndex] scans the string from its start, like [-1];
    whatever the index, the result is [-1] or an index after [fromIndex],
    inside the string, at which a closing brace stands. *)
Theorem findClosingBracket_range s i :
  (i < -1 -> findClosingBracket s i = findClosingBracket s (-1)) /\
  (findClosingBracket s i = -1 \/
   (i < findClosingBracket s i /\ 0 <= findClosingBracket s i < len s /\
    charAt s (findClosingBracket s i) = str "}")).
Proof.
  pose proof (findClosingBracket_negative s i) as Hneg.
  split; [done|].
  assert (Hfrom : forall i0, -1 <= i0 ->
    findClosingBracket s i0 = -1 \/
    (i0 < findClosingBracket s i0 /\ 0 <= findClosingBracket s i0 < len s /\
     charAt s (findClosingBracket s i0) = str "}")).
  { intros i0 Hi0. rewrite findClosingBracket_closing_from by done.
    destruct (closing _ 0) as [k|] eqn:Hk; [right|by left].
    pose proof (closing_lookup _ _ _ Hk) as Hl.
    pose proof (closing_lt _ _ _ Hk) as Hlt.
    rewrite lookup_drop in Hl. rewrite length_drop in Hlt.
    split; [lia|]. split; [unfold len; lia|].
    rewrite str_close_brace. apply charAt_lookup. split; [lia|].
    rewrite <- Hl. f_equal. lia. }
  destruct (Z.le_gt_cases (-1) i) as [Hi|Hi]; [by apply Hfrom|].
  rewrite Hneg by lia.
  destruct (Hfrom (-1) ltac:(lia)) as [?|(? & ? & ?)]; [by left|right].
  split; [lia|done].
Qed.

Lemma closing_app r x d k :
  closing r d = Some k -> closing (r ++ x) d = Some k.
Proof.
  revert d k. induction r as [|c r IH]; intros d k; simpl; [done|].
  destruct (c =? close_brace)%N.
  - destruct d as [|d]; [done|].
    destruct (closing r d) as [k'|] eqn:E; [|done].
    intros [= <-]. by rewrite (IH _ _ E).
  - destruct (c =? open_brace)%N.
    + destruct (closing r (S d)) as [k'|] eqn:E; [|done].
      intros [= <-]. by rewrite (IH _ _ E).
    + destruct (closing r d) as [k'|] eqn:E; [|done].
      intros [= <-]. by rewrite (IH _ _ E).
Qed.

(** X6. The match depends only on what follows [fromIndex]: in front of any
    prefix the result is the same index, shifted by the length of the
    prefix. *)
Theorem findClosingBracket_after_prefix p s i :
  0 <= i ->
  findClosingBracket (p ++ s) (len p + i) =
  if findClosingBracket s i =? -1 then -1
  else len p + findClosingBracket s i.
Proof.
  intros Hi. pose proof (len_nonneg p).
  rewrite !findClosingBracket_closing_from by lia.
  replace (Z.to_nat (len p + i + 1)) with (length p + Z.to_nat (i + 1))%nat
    by (unfold len; lia).
  rewrite <- drop_drop, drop_app_length.
  destruct (closing _ 0) as [k|]; [|done].
  destruct (Z.eqb_spec (i + 1 + Z.of_nat k) (-1)); lia.
Qed.

Lemma findClosingBracket_after_prefix_witness :
  findClosingBracket (str "Hi " ++ str "{a{b}c}") (len (str "Hi ") + 0) =
  if findClosingBracket (str "{a{b}c}") 0 =? -1 then -1
  else len (str "Hi ") + findClosingBracket (str "{a{b}c}") 0.
Proof.
  apply (findClosingBracket_after_prefix (str "Hi ") (str "{a{b}c}") 0). lia.
Defined.

(** X7. A match that is found stays where it is when text is appended to the
    string. *)
Theorem findClosingBracket_before_suffix s x i j :
  findClosingBracket s i = j -> j <> -1 ->
  findClosingBracket (s ++ x) i = j.
Proof.
  assert (Hfrom : forall i0, -1 <= i0 ->
    findClosingBracket s i0 <> -1 ->
    findClosingBracket (s ++ x) i0 = findClosingBracket s i0).
  { intros i0 Hi0. rewrite !findClosingBracket_closing_from by done.
    destruct (closing (drop _ s) 0) as [k|] eqn:Hk; [|done]. intros _.
    pose proof (closing_lt _ _ _ Hk) as Hlt. rewrite length_drop in Hlt.
    rewrite drop_app_le by lia. by rewrite (closing_app _ x _ _ Hk). }
  intros <- Hj.
  destruct (Z.le_gt_cases (-1) i) as [Hi|Hi]; [by apply Hfrom|].
  rewrite (findClosingBracket_negative s), (findClosingBracket_negative (s ++ x))
    in * by lia.
  apply Hfrom; [lia|done].
Qed.

Lemma findClosingBracket_before_suffix_witness :
  findClosingBracket (str "{a{b}c}" ++ str " and {more") 0 = 6.
Proof.
  apply (findClosingBracket_before_suffix (str "{a{b}c}") (str " and {more")
           0 6).
  - vm_compute. reflexivity.
  - lia.
Defined.

End BracketMatcherMore.

(** ** More on the message processor *)

Section ProcessorMore.

Context (typeHandlers : gmap jsstring typeHandler).
Implicit Types (message t r : jsstring) (values : gmap jsstring value).

Lemma unmatched_first t r :
  closing r 0 = None -> unmatched (t ++ open_brace :: r).
Proof.
  intros Hk. apply unmatched_lookup. exists (length t). split.
  - by rewrite list_lookup_middle.
  - replace (S (length t)) with (length t + 1)%nat by lia.
    rewrite <- drop_drop, drop_app_length. simpl. by rewrite drop_0.
Qed.

Lemma unmatched_from_tail t r k :
  unmatched (drop (S k) r) -> unmatched (t ++ open_brace :: r).
Proof.
  rewrite !unmatched_lookup. intros (n & Hl & Hc).
  exists (length t + S (S k + n))%nat. split.
  - rewrite lookup_app_r by lia.
    replace (length t + S (S k + n) - length t)%nat with (S (S k + n)) by lia.
    simpl. by rewrite lookup_drop in Hl.
  - rewrite drop_drop in Hc.
    replace (S (length t + S (S k + n))) with (length t + S (S (S k + n)))%nat
      by lia.
    rewrite <- drop_drop, drop_app_length. simpl.
    replace (S k + S n)%nat with (S (S k + n)) in Hc by lia. done.
Qed.

(** X8. When the handler calls that [process] makes for the blocks of the
    message return, [process] returns a node sequence exactly for the
    messages in which every opening brace is matched; closing braces without
    an opening one do not matter. *)
Theorem process_returns_iff_matched (fuel : nat) message values locale :
  (length message < fuel)%nat ->
  handler_calls_return typeHandlers fuel (blocks message) values locale
    = true ->
  (exists nodes,
     process typeHandlers fuel message values locale = Returned nodes) <->
  ~ unmatched message.
Proof.
  intros Hlen Hcalls. split.
  { intros [nodes Hp] Hu.
    by apply (process_unmatched_never_returns typeHandlers fuel message
                values locale nodes). }
  revert message Hlen Hcalls.
  induction fuel as [|fuel IH]; intros message Hlen Hcalls Hu; [lia|].
  destruct (message_cases message)
    as [->|[[Hm Hn]|[(t & r & -> & Hn & Hk)|(t & r & k & -> & Hn & Hk)]]].
  - by exists [].
  - rewrite process_no_block by done. eauto.
  - exfalso. apply Hu. by apply unmatched_first.
  - destruct (process_block_returning typeHandlers fuel t r k values locale
                Hn Hk Hcalls) as (Hcalls' & v & ->).
    destruct (block_pieces t r k Hn Hk) as (_ & _ & _ & _ & Htail).
    unfold emit. cbv zeta. rewrite Htail.
    destruct (truthy (drop (S k) r)); [|eauto].
    destruct (IH (drop (S k) r)) as [rest ->]; [|done| |cbn [bind]; eauto].
    + rewrite length_drop. rewrite length_app in Hlen. simpl in Hlen. lia.
    + intros Hu'. apply Hu. by eapply unmatched_from_tail.
Qed.

(** X9. A returned node sequence is empty only for the empty message, and
    no message node in it carries the empty string. *)
Theorem process_message_nodes (fuel : nat) message values locale
    (nodes : list value) :
  process typeHandlers fuel message values locale = Returned nodes ->
  (nodes = [] <-> message = []) /\
  Forall (fun node =>
            property node (str "source") = VString (str "message") ->
            exists s, s <> [] /\ property node (str "value") = VString s)
         nodes.
Proof.
  revert message nodes. induction fuel as [|fuel IH]; intros message nodes;
    [done|].
  destruct (message_cases message)
    as [->|[[Hm Hn]|[(t & r & -> & Hn & Hk)|(t & r & k & -> & Hn & Hk)]]].
  - intros [= <-]. split; [done|constructor].
  - rewrite process_no_block by done. intros [= <-]. split; [done|].
    constructor; [|constructor]. intros _. by exists message.
  - by rewrite process_unclosed.
  - rewrite process_block by (by eapply shape_has_block). cbv zeta.
    destruct (match handler_for _ _ with Some _ => _ | None => _ end)
      as [v| |]; [|done..].
    cbn [bind]. intros Hemit.
    apply emit_returns in Hemit as (rest & Hrest & ->).
    split.
    { split; [|by destruct t]. intros E. by apply app_eq_nil in E as [_ ?]. }
    apply Forall_app. split.
    + destruct (head_of _) as [|c head] eqn:Hhead; [constructor|].
      constructor; [|constructor]. intros _. by exists (c :: head).
    + constructor.
      * intros Hsrc. vm_compute in Hsrc. discriminate Hsrc.
      * destruct (truthy (tail_of _)); [|by injection Hrest as <-].
        by apply IH in Hrest as [_ ?].
Qed.

(** X10. A returned node sequence has one placeholder node for each block of
    the message, in the order of the blocks, and the node carries the key and
    the type that the block splits into. *)
Theorem process_placeholder_nodes (fuel : nat) message values locale
    (nodes : list value) :
  process typeHandlers fuel message values locale = Returned nodes ->
  map node_tag (List.filter is_value_node nodes) =
  map block_tag (blocks message).
Proof.
  revert message nodes. induction fuel as [|fuel IH]; intros message nodes;
    [done|].
  destruct (message_cases message)
    as [->|[[Hm Hn]|[(t & r & -> & Hn & Hk)|(t & r & k & -> & Hn & Hk)]]].
  - by intros [= <-].
  - rewrite process_no_block by done. intros [= <-].
    unfold blocks, segments. rewrite <- (app_nil_r message) at 2.
    rewrite segments_literal by done. simpl.
    by rewrite app_nil_r, blocks_literal.
  - by rewrite process_unclosed.
  - rewrite process_block by (by eapply shape_has_block). cbv zeta.
    destruct (match handler_for _ _ with Some _ => _ | None => _ end)
      as [v| |]; [|done..].
    cbn [bind]. intros Hemit.
    apply emit_returns in Hemit as (rest & Hrest & ->).
    destruct (block_pieces t r k Hn Hk) as (_ & _ & Hblock & _ & Htail).
    unfold blocks. rewrite (segments_block t r k Hn Hk).
    rewrite flat_map_app, blocks_literal. cbn [flat_map app].
    fold (blocks (drop (S k) r)).
    rewrite List.filter_app.
    assert (List.filter is_value_node
              (if truthy (head_of (t ++ open_brace :: r))
               then [decorateMessageString (head_of (t ++ open_brace :: r))]
               else []) = []) as ->.
    { destruct (truthy (head_of (t ++ open_brace :: r)));
        [vm_compute|]; reflexivity. }
    cbn [app List.filter].
    assert (is_value_node
              (decorateValue
                 (splitFormattedArgument (block_of (t ++ open_brace :: r))
                    !! 0%nat)
                 (splitFormattedArgument (block_of (t ++ open_brace :: r))
                    !! 1%nat) v) = true) as ->.
    { unfold is_value_node, decorateValue, property.
      cbn [lookup_property]. rewrite same_refl. apply same_refl. }
    cbn [map]. rewrite Hblock. f_equal.
    rewrite Htail in Hrest.
    destruct (drop (S k) r) as [|c tail] eqn:Hd.
    + by injection Hrest as <-.
    + by apply IH in Hrest.
Qed.

(** X11. An exception thrown by the handler of the first block is the outcome
    of [process] and of [format]: no node is returned, not even for the text
    before the block. *)
Theorem handler_exception_propagates (fuel : nat) message values locale
    handler e :
  has_block message ->
  let parts := splitFormattedArgument (block_of message) in
  handler_for typeHandlers (parts !! 1%nat) = Some handler ->
  handler (body_of values (parts !! 0%nat)) (parts !! 2%nat) values locale
    (process typeHandlers fuel) = Thrown e ->
  process typeHandlers (S fuel) message values locale = Thrown e /\
  format typeHandlers (S fuel) message values locale = Thrown e.
Proof.
  intros Hb parts Hh He.
  assert (Hp : process typeHandlers (S fuel) message values locale = Thrown e)
    by (by eapply process_handler_throws).
  split; [done|]. unfold format. by rewrite Hp.
Qed.

End ProcessorMore.

(** ** More on the string renderer *)

Section RendererMore.

Implicit Types (array items : list value) (v : value).

(** Induction on values through the items of arrays and the properties of
    objects. *)
Lemma value_nested_ind (P : value -> Prop) :
  P VUndefined -> P VNull ->
  (forall s, P (VString s)) -> (forall text, P (VPrimitive text)) ->
  (forall items, Forall P items -> P (VArray items)) ->
  (forall props, Forall (fun nv => P nv.2) props -> P (VObject props)) ->
  (forall source, P (VFunction source)) -> (forall text, P (VBoxed text)) ->
  forall v, P v.
Proof.
  intros Hu Hn Hs Hp Ha Ho Hf Hb. fix IH 1.
  intros [| | s | text | items | props | source | text].
  - exact Hu.
  - exact Hn.
  - apply Hs.
  - apply Hp.
  - apply Ha. induction items as [|x items IHitems]; constructor.
    + apply IH.
    + exact IHitems.
  - apply Ho. induction props as [|[n x] props IHprops]; constructor.
    + apply IH.
    + exact IHprops.
  - apply Hf.
  - apply Hb.
Qed.

Lemma lookup_property_Forall (P : value -> Prop) props name :
  P VUndefined -> Forall (fun nv => P nv.2) props ->
  P (lookup_property props name).
Proof.
  intros Hu. induction 1 as [|[n x] props Hx _ IH]; simpl; [done|].
  by destruct (same n name).
Qed.

Lemma extractValues_Forall (P : list value -> Prop) array leaves :
  P [] -> (forall a b, P a -> P b -> P (a ++ b)) ->
  Forall (fun element =>
            forall l, extractValues_element element = Returned l -> P l)
         array ->
  extractValues array = Returned leaves -> P leaves.
Proof.
  intros Hnil Happ Hall. revert leaves.
  induction Hall as [|e array He _ IH]; intros leaves; simpl.
  - by intros [= <-].
  - destruct (extractValues_element e) as [x| |]; [|done..]. cbn [bind].
    destruct (extractValues array) as [y| |]; [|done..]. cbn [bind].
    intros [= <-]. apply Happ; [by apply He | by apply IH].
Qed.

(** X12. The flattening is complete: no array is left among the values that
    [extractValues] returns, however deep the node sequences nest. *)
Theorem extractValues_leaves_not_arrays array leaves :
  extractValues array = Returned leaves -> Forall not_array leaves.
Proof.
  assert (Hall : forall v,
    (forall l, extractValues_element v = Returned l -> Forall not_array l) /\
    (forall items l, v = VArray items -> extractValues items = Returned l ->
                     Forall not_array l)).
  { induction v as [| | s | text | items IH | props IH | source | text]
      using value_nested_ind.
    - split; [done|done].
    - split; [done|done].
    - split; [|done]. intros l [= <-]. by repeat constructor.
    - split; [|done]. intros l [= <-]. by repeat constructor.
    - split.
      + intros l [= <-]. by repeat constructor.
      + intros items' l [= <-].
        apply extractValues_Forall; [constructor|..].
        * intros a b Ha Hb. apply Forall_app. done.
        * eapply Forall_impl; [exact IH|]. by intros x [Hx _].
    - split; [|done]. intros l.
      rewrite extractValues_element_equation. cbn [get bind].
      pose proof (lookup_property_Forall
        (fun v =>
           (forall l, extractValues_element v = Returned l ->
                      Forall not_array l) /\
           (forall items l, v = VArray items ->
                            extractValues items = Returned l ->
                            Forall not_array l))
        props (str "value") ltac:(done) IH) as [_ Hv].
      destruct (lookup_property props (str "value"))
        as [| | s | text | items | | |];
        try (intros [= <-]; by repeat constructor).
      by apply Hv.
    - split; [|done]. intros l [= <-]. by repeat constructor.
    - split; [|done]. intros l [= <-]. by repeat constructor. }
  apply extractValues_Forall; [constructor|..].
  - intros a b Ha Hb. apply Forall_app. done.
  - apply Forall_forall. intros x _. apply Hall.
Qed.

(** X13. [extractValues] reads nothing but the [value] property of the
    elements: arrays whose elements agree on it give the same outcome. So the
    nodes that the exported decorators build, [decorateMessage] like
    [decorateMessageString] and [decoratePlaceholder] with its other
    [source], flatten like the nodes of [process]. *)
Theorem extractValues_reads_value_only :
  (forall array1 array2,
     Forall2 (fun a b => get a (str "value") = get b (str "value"))
             array1 array2 ->
     extractValues array1 = extractValues array2) /\
  (forall s, decorateMessage s = decorateMessageString s) /\
  (forall key type v,
     get (decoratePlaceholder key type v) (str "value") =
     get (decorateValue key type v) (str "value") /\
     get (decoratePlaceholder key type v) (str "source") =
     Returned (VString SOURCE_PLACEHOLDER) /\
     get (decoratePlaceholder key type v) (str "source") <>
     get (decorateValue key type v) (str "source")).
Proof.
  split; [|split].
  - induction 1 as [|a b array1 array2 Hab _ IH]; [done|].
    cbn [extractValues]. rewrite !extractValues_element_equation, Hab, IH.
    done.
  - done.
  - intros key type v. split; [done|]. split; [done|].
    vm_compute. discriminate.
Qed.

(** X14. A node whose value is a node sequence contributes the leaves of that
    sequence, between those of the nodes before it and after it. *)
Theorem extractValues_nested before key type inner after :
  extractValues (before ++ decorateValue key type (VArray inner) :: after) =
  do x <- extractValues before ;
  do y <- extractValues inner ;
  do z <- extractValues after ;
  Returned (x ++ y ++ z).
Proof.
  rewrite extractValues_app. cbn [extractValues].
  rewrite extractValues_element_equation, value_of_value_node.
  cbn [bind]. destruct (extractValues before); [|done..]. cbn [bind].
  destruct (extractValues inner); [|done..]. cbn [bind].
  destruct (extractValues after); done.
Qed.

(** X15. An array with an [undefined] or [null] element cannot be flattened:
    reading the [value] property of that element throws. *)
Theorem extractValues_undefined_element array leaves :
  VUndefined ∈ array \/ VNull ∈ array ->
  extractValues array <> Returned leaves.
Proof.
  revert leaves. induction array as [|e array IH]; intros leaves Hin.
  - destruct Hin as [Hin|Hin]; by apply elem_of_nil in Hin.
  - assert (Hcases : e = VUndefined \/ e = VNull \/
                     (VUndefined ∈ array \/ VNull ∈ array)).
    { destruct Hin as [Hin|Hin]; apply elem_of_cons in Hin as [<-|Hin];
        auto. }
    cbn [extractValues].
    destruct Hcases as [->|[->|Hrest]]; [done..|].
    destruct (extractValues_element e) as [x| |]; [|done..]. cbn [bind].
    destruct (extractValues array) as [y| |] eqn:Hy; [|done..].
    exfalso. by apply (IH y).
Qed.

Lemma array_join_undefined n : array_join (replicate n VUndefined) [] = [].
Proof.
  unfold array_join. rewrite join_empty_separator.
  induction n as [|n IH]; [done|]. simpl. exact IH.
Qed.

(** X16. A placeholder value that is an array of strings, other primitives
    or arrays is not a node sequence: each element gives [undefined], and the
    node renders as the empty string. *)
Theorem extractValues_array_without_nodes key type items :
  forallb without_value_property items = true ->
  extractValues [decorateValue key type (VArray items)] =
    Returned (replicate (length items) VUndefined) /\
  array_join (replicate (length items) VUndefined) [] = [].
Proof.
  intros Hitems. split; [|apply array_join_undefined].
  cbn [extractValues]. rewrite extractValues_element_equation.
  rewrite value_of_value_node. cbn [bind].
  assert (extractValues items = Returned (replicate (length items) VUndefined))
    as ->; [|cbn [bind]; by rewrite app_nil_r].
  induction items as [|x items IH]; [done|].
  simpl in Hitems. apply andb_true_iff in Hitems as [Hx Hitems].
  cbn [extractValues]. rewrite (IH Hitems).
  by destruct x.
Qed.

End RendererMore.

(** ** A handler that re-enters the processor *)

Section Nesting.

Context (typeHandlers : gmap jsstring typeHandler).
Implicit Types (key t inner : jsstring) (values : gmap jsstring value).

(** X17. A block whose handler hands the format to the processor and returns
    the nodes it gets becomes one node holding that node sequence, and
    [format] of the block is [format] of its format part. *)
Theorem format_through_nesting (fuel : nat) key t handler inner values locale :
  typeHandlers !! t = Some handler ->
  (forall body f vs loc recurse,
     handler body (Some f) vs loc recurse =
     do nodes <- recurse f vs loc ; Returned (VArray nodes)) ->
  comma ∉ key -> comma ∉ t ->
  trim t = t -> t <> [] -> trim inner = inner -> inner <> [] ->
  nested (key ++ str ", " ++ t ++ str ", " ++ inner) ->
  let message :=
    str "{" ++ key ++ str ", " ++ t ++ str ", " ++ inner ++ str "}" in
  process typeHandlers (S fuel) message values locale =
    (do nodes <- process typeHandlers fuel inner values locale ;
     Returned [decorateValue (Some (trim key)) (Some t) (VArray nodes)]) /\
  format typeHandlers (S fuel) message values locale =
    format typeHandlers fuel inner values locale.
Proof.
  intros Hreg Hnest Hk Ht Htrim Htne Hitrim Hine Hnested message.
  destruct (canonical_parts key t inner Hk Ht Htrim Htne Hitrim Hine)
    as [Hparts _].
  fold message in Hparts.
  set (interior := key ++ str ", " ++ t ++ str ", " ++ inner) in *.
  assert (Hmessage : message = [] ++ open_brace :: interior ++ [close_brace]).
  { unfold message, interior. rewrite str_open_brace, str_close_brace.
    cbn [app]. by rewrite <- !app_assoc. }
  assert (Hclose : closing (interior ++ [close_brace]) 0 =
                   Some (length interior)) by (by apply closing_nested).
  destruct (block_pieces [] (interior ++ [close_brace]) (length interior)
              ltac:(apply not_elem_of_nil) Hclose)
    as (_ & _ & Hblock & Hhead & Htail).
  rewrite <- Hmessage in Hblock, Hhead, Htail.
  rewrite take_ge in Hblock by (rewrite length_app; simpl; lia).
  rewrite drop_ge in Htail by (rewrite length_app; simpl; lia).
  assert (Hb : has_block message).
  { rewrite Hmessage. eapply shape_has_block; [apply not_elem_of_nil|done]. }
  assert (Hwhole : block_of message = message) by (by rewrite Hblock, Hmessage).
  assert (Hp : process typeHandlers (S fuel) message values locale =
    do nodes <- process typeHandlers fuel inner values locale ;
    Returned [decorateValue (Some (trim key)) (Some t) (VArray nodes)]).
  { rewrite process_block by done. cbv zeta. unfold emit. cbv zeta.
    rewrite Hhead, Htail, Hwhole, Hparts. cbn [lookup list_lookup handler_for].
    apply truthy_true in Htne. unfold read_handler.
    rewrite Htne, Hreg, Hnest.
    destruct (process typeHandlers fuel inner values locale); done. }
  split; [done|]. unfold format. rewrite Hp.
  destruct (process typeHandlers fuel inner values locale) as [nodes| |];
    [|done..].
  cbn [bind extractValues]. rewrite extractValues_element_equation.
  rewrite value_of_value_node. cbn [bind].
  destruct (extractValues nodes); [|done..]. cbn [bind].
  by rewrite app_nil_r.
Qed.

End Nesting.

(** ** The further properties at concrete inputs *)

Lemma failing_handlers_block : has_block (str "a {k, boom} {").
Proof. split; vm_compute; discriminate. Defined.

Lemma handler_exception_propagates_witness :
  process failing_handlers 3 (str "a {k, boom} {") ∅ None =
    Thrown (TypeError (str "boom")) /\
  format failing_handlers 3 (str "a {k, boom} {") ∅ None =
    Thrown (TypeError (str "boom")).
Proof.
  apply (handler_exception_propagates failing_handlers 2 (str "a {k, boom} {")
           ∅ None (fun _ _ _ _ _ => Thrown (TypeError (str "boom")))
           (TypeError (str "boom")) failing_handlers_block).
  - vm_compute. reflexivity.
  - reflexivity.
Defined.

Lemma process_returns_iff_matched_witness :
  (exists nodes,
     process nesting_handlers 6 (str "} {a}") ∅ None = Returned nodes)
  <-> ~ unmatched (str "} {a}").
Proof.
  apply (process_returns_iff_matched nesting_handlers 6 (str "} {a}") ∅ None).
  - simpl. lia.
  - vm_compute. reflexivity.
Defined.

Lemma process_message_nodes_witness :
  ([decorateValue (Some (str "a")) None (VString []);
    decorateMessageString (str "b")] = [] <-> str "{a}b" = []) /\
  Forall (fun node =>
            property node (str "source") = VString (str "message") ->
            exists s, s <> [] /\ property node (str "value") = VString s)
         [decorateValue (Some (str "a")) None (VString []);
          decorateMessageString (str "b")].
Proof.
  apply (process_message_nodes echo_handlers 3 (str "{a}b") ∅ None).
  vm_compute. reflexivity.
Defined.

Lemma process_placeholder_nodes_witness :
  map node_tag
    (List.filter is_value_node
       [decorateValue (Some (str "a")) (Some (str "text")) (VString []);
        decorateMessageString (str " and ");
        decorateValue (Some (str "b")) None (VString [])]) =
  map block_tag (blocks (str "{a, text} and {b}")).
Proof.
  apply (process_placeholder_nodes echo_handlers 4 (str "{a, text} and {b}")
           ∅ None).
  vm_compute. reflexivity.
Defined.

Lemma extractValues_leaves_not_arrays_witness :
  Forall not_array [VString (str "a"); VString (str "b"); VUndefined].
Proof.
  apply (extractValues_leaves_not_arrays
           [decorateMessageString (str "a");
            decorateValue None None
              (VArray [decorateMessageString (str "b");
                       VArray [VString (str "c")]])]).
  vm_compute. reflexivity.
Defined.

Lemma extractValues_undefined_element_witness :
  extractValues [decorateMessageString (str "a"); VNull] <>
  Returned [VString (str "a")].
Proof.
  apply (extractValues_undefined_element
           [decorateMessageString (str "a"); VNull] [VString (str "a")]).
  right. apply elem_of_cons. right. apply elem_of_cons. left. reflexivity.
Defined.

Lemma extractValues_array_without_nodes_witness :
  extractValues
    [decorateValue (Some (str "k")) None
       (VArray [VString (str "x"); VPrimitive (str "1")])] =
    Returned (replicate 2 VUndefined) /\
  array_join (replicate 2 VUndefined) [] = [].
Proof.
  apply (extractValues_array_without_nodes (Some (str "k")) None
           [VString (str "x"); VPrimitive (str "1")]).
  reflexivity.
Defined.

Lemma format_through_nesting_witness :
  process nesting_handlers 3
    (str "{" ++ str "n" ++ str ", " ++ str "nest" ++ str ", " ++
     str "You have {count}" ++ str "}")
    {[ str "count" := VPrimitive (str "3") ]} None =
    (do nodes <- process nesting_handlers 2 (str "You have {count}")
                   {[ str "count" := VPrimitive (str "3") ]} None ;
     Returned [decorateValue (Some (trim (str "n"))) (Some (str "nest"))
                 (VArray nodes)]) /\
  format nesting_handlers 3
    (str "{" ++ str "n" ++ str ", " ++ str "nest" ++ str ", " ++
     str "You have {count}" ++ str "}")
    {[ str "count" := VPrimitive (str "3") ]} None =
    format nesting_handlers 2 (str "You have {count}")
      {[ str "count" := VPrimitive (str "3") ]} None.
Proof.
  apply (format_through_nesting nesting_handlers 2 (str "n") (str "nest")
           nesting_handler (str "You have {count}")
           {[ str "count" := VPrimitive (str "3") ]} None).
  - reflexivity.
  - reflexivity.
  - intros Hin. apply list_elem_of_In in Hin. simpl in Hin.
    repeat (destruct Hin as [Hin|Hin]; [discriminate Hin|]). exact Hin.
  - intros Hin. apply list_elem_of_In in Hin. simpl in Hin.
    repeat (destruct Hin as [Hin|Hin]; [discriminate Hin|]). exact Hin.
  - vm_compute. reflexivity.
  - discriminate.
  - vm_compute. reflexivity.
  - discriminate.
  - exact (closing_take_nested (str "n, nest, You have {count}}") 25
             eq_refl).
Defined.

(** ** Parts are pieces of the block *)

Section Pieces.

Implicit Types (s p q separator : jsstring).

Lemma piece_refl s : piece s s.
Proof. exists [], []. by rewrite app_nil_r. Qed.

Lemma piece_trans p q s : piece p q -> piece q s -> piece p s.
Proof.
  intros (a & b & ->) (a' & b' & ->). exists (a' ++ a), (b ++ b').
  by rewrite <- !app_assoc.
Qed.

Lemma piece_take_drop s n m : piece (take n (drop m s)) s.
Proof.
  exists (take m s), (drop n (drop m s)).
  by rewrite app_assoc, <- (app_assoc (take m s)), !take_drop.
Qed.

Lemma piece_substring s a b : piece (substring s a b) s.
Proof. apply piece_take_drop. Qed.

Lemma piece_trimStart s : piece (trimStart s) s.
Proof.
  induction s as [|c s IH]; [apply piece_refl|]. simpl.
  destruct (is_whitespace c); [|apply piece_refl].
  eapply piece_trans; [exact IH|]. exists [c], []. by rewrite app_nil_r.
Qed.

Lemma piece_rev p s : piece p s -> piece (rev p) (rev s).
Proof.
  intros (a & b & ->). exists (rev b), (rev a).
  by rewrite !rev_app_distr, <- app_assoc.
Qed.

Lemma piece_trim s : piece (trim s) s.
Proof.
  unfold trim, trimEnd. eapply piece_trans; [|apply piece_trimStart].
  rewrite <- (rev_involutive (trimStart s)) at 2.
  apply piece_rev, piece_trimStart.
Qed.

Lemma split_bounded_pieces n s separator limit :
  Forall (fun p => piece p s) (split_bounded n s separator limit []).
Proof.
  revert s limit. induction n as [|n IH]; intros s limit; simpl; [done|].
  destruct (truthy s); simpl; [|done].
  assert (Hs : Forall (fun p => piece p s) [s]).
  { constructor; [apply piece_refl | constructor]. }
  destruct (limit =? 1); [done|].
  destruct (indexOf s separator =? -1); [done|].
  rewrite split_bounded_accumulator. apply Forall_app. split.
  - constructor; [|constructor].
    eapply piece_trans; [apply piece_trim | apply piece_substring].
  - eapply Forall_impl; [apply IH|]. intros p Hp.
    eapply piece_trans; [exact Hp|].
    eapply piece_trans; [apply piece_trim | apply piece_substring].
Qed.

(** X18. [split] invents nothing: every part it adds is a contiguous piece
    of the string it was given, so the key, type and format of a block are
    pieces of the block. *)
Theorem split_parts_are_pieces :
  (forall s separator limit,
     Forall (fun p => piece p s) (split s separator limit [])) /\
  (forall block,
     Forall (fun p => piece p block) (splitFormattedArgument block)).
Proof.
  split.
  - intros s separator limit. apply split_bounded_pieces.
  - intros block. unfold splitFormattedArgument, split.
    eapply Forall_impl; [apply split_bounded_pieces|].
    intros p Hp. eapply piece_trans; [exact Hp|]. apply piece_take_drop.
Qed.

End Pieces.

(** ** The block without a key *)

Section EmptyBlock.

Context (typeHandlers : gmap jsstring typeHandler).
Implicit Types (t r : jsstring) (values : gmap jsstring value).

(** X19. The empty block has no key and no type: the value read for it is
    the property of the values named "undefined", the empty string when there
    is none; no handler is called, and the node carries [undefined] as key
    and type. *)
Theorem process_empty_block (fuel : nat) t r values locale :
  open_brace ∉ t ->
  process typeHandlers (S fuel) (t ++ str "{}" ++ r) values locale =
  do rest <- (if truthy r then process typeHandlers fuel r values locale
              else Returned []) ;
  Returned ((if truthy t then [decorateMessageString t] else []) ++
            decorateValue None None
              (match values !! str "undefined" with
               | None | Some VUndefined | Some VNull => VString []
               | Some v => v
               end) :: rest).
Proof.
  intros Hn. change (str "{}" ++ r) with (open_brace :: close_brace :: r).
  assert (Hk : closing (close_brace :: r) 0 = Some 0%nat) by done.
  destruct (block_pieces t (close_brace :: r) 0 Hn Hk)
    as (_ & _ & Hblock & Hhead & Htail).
  change (take 1 (close_brace :: r)) with [close_brace] in Hblock.
  change (drop 1 (close_brace :: r)) with r in Htail.
  rewrite process_block by (by eapply shape_has_block). cbv zeta.
  unfold emit. cbv zeta. rewrite Hblock, Hhead, Htail.
  change (splitFormattedArgument [open_brace; close_brace]) with (@nil jsstring).
  cbn [lookup list_lookup handler_for bind].
  assert (body_of values None =
          match values !! str "undefined" with
          | None | Some VUndefined | Some VNull => VString []
          | Some v => v
          end) as ->.
  { unfold body_of, property_key, read_property.
    destruct (values !! str "undefined") as [v|]; [by destruct v|].
    vm_compute. reflexivity. }
  destruct (truthy r); [|done].
  destruct (process typeHandlers fuel r values locale); cbn [bind]; [|done..].
  by rewrite <- app_assoc.
Qed.

End EmptyBlock.

Lemma process_empty_block_witness :
  process echo_handlers 2 (str "a" ++ str "{}" ++ str "b") ∅ None =
  do rest <- (if truthy (str "b") then process echo_handlers 1 (str "b") ∅ None
              else Returned []) ;
  Returned ((if truthy (str "a") then [decorateMessageString (str "a")]
             else []) ++
            decorateValue None None
              (match (∅ : gmap jsstring value) !! str "undefined" with
               | None | Some VUndefined | Some VNull => VString []
               | Some v => v
               end) :: rest).
Proof.
  apply (process_empty_block echo_handlers 1 (str "a") (str "b") ∅ None).
  intros Hin. apply list_elem_of_In in Hin. simpl in Hin.
  repeat (destruct Hin as [Hin|Hin]; [discriminate Hin|]). exact Hin.
Defined.

Lemma findClosingBracket_range_witness :
  findClosingBracket (str "a}b") (-3) = findClosingBracket (str "a}b") (-1).
Proof.
  apply (proj1 (findClosingBracket_range (str "a}b") (-3))). lia.
Defined.

Lemma extractValues_reads_value_only_witness :
  extractValues [decoratePlaceholder (Some (str "k")) None (VString (str "v"))] =
  extractValues [decorateValue (Some (str "k")) None (VString (str "v"))].
Proof.
  apply (proj1 extractValues_reads_value_only).
  constructor; [reflexivity | constructor].
Defined.
